(** * awesome-drizzle: the upsert helpers and the first-row helpers

    A shallow embedding of [build-conflict-update-columns.ts],
    [upsert-record.ts] and of the two first-row helpers [takeFirstOrNull]
    and [takeFirstOrThrow], with the properties their specification
    states about them.

    JavaScript objects are kept as association lists in the order in which
    [Object.keys] enumerates them, thrown exceptions are a constructor of a
    result type, and the query builder, which is a collaborator and not part
    of the repository, is taken as a parameter of the development.  The
    column-set builder is given twice: on values, where its result is
    characterised, and on a store of mutable objects with references, where
    what it allocates and what it leaves alone can be stated. *)

From Stdlib Require Import Ascii String SpecFloat.
From stdpp Require Import strings gmap sets numbers list.

Set Warnings "-register-all,-clear-no-such-hyp".

Local Open Scope string_scope.
Local Open Scope list_scope.
Local Open Scope stdpp_scope.

(** ** Exceptions and completions *)

(** The values that the modelled code throws or lets through. [Error] and
    [TypeError] are the language's own; [DriverError] stands for whatever the
    query builder or the connection raises. *)
Inductive exn : Type :=
| Error (message : string)
| TypeError (message : string)
| DriverError (code : string) (message : string).

#[global] Instance exn_eq_dec : EqDecision exn.
Proof. solve_decision. Defined.

(** A call either returns a value or throws. *)
Inductive result (A : Type) : Type :=
| Ok (a : A)
| Throw (e : exn).
Arguments Ok {A} a.
Arguments Throw {A} e.

#[global] Instance result_ret : MRet result := λ A a, Ok a.
#[global] Instance result_bind : MBind result := λ A B f m,
  match m with
  | Ok a => f a
  | Throw e => Throw e
  end.

(** ** Objects *)

(** An object with string keys: its own enumerable properties, listed in
    the order of [Object.keys]. *)
Definition JsObject (V : Type) : Type := list (string * V).

Definition digit_of (a : ascii) : option N :=
  let n := N_of_ascii a in
  if ((48 <=? n) && (n <=? 57))%N then Some (n - 48)%N else None.

Fixpoint parse_digits (acc : N) (s : string) : option N :=
  match s with
  | EmptyString => Some acc
  | String a r =>
      match digit_of a with
      | Some d => parse_digits (10 * acc + d)%N r
      | None => None
      end
  end.

(** A property key is an array index when it is the canonical decimal
    numeral of an integer below 2^32 - 1.  Such keys are enumerated first,
    in ascending numeric order, whatever the order of their creation. *)
Definition array_index (s : string) : option N :=
  match s with
  | EmptyString => None
  | String a r =>
      if Ascii.eqb a "0" then
        match r with
        | EmptyString => Some 0%N
        | String _ _ => None
        end
      else
        match parse_digits 0 s with
        | Some n => if (n <? 4294967295)%N then Some n else None
        | None => None
        end
  end.

(** [Object.keys(o)] *)
Definition Object_keys {V} (o : JsObject V) : list string := o.*1.

(** [o[k]]; [None] is [undefined]. *)
Fixpoint obj_get {V} (o : JsObject V) (k : string) : option V :=
  match o with
  | [] => None
  | (k', v) :: o' => if decide (k' = k) then Some v else obj_get o' k
  end.

Definition obj_has {V} (o : JsObject V) (k : string) : bool :=
  bool_decide (k ∈ Object_keys o).

(** Assignment to a property that exists keeps its place. *)
Fixpoint obj_replace {V} (o : JsObject V) (k : string) (v : V) : JsObject V :=
  match o with
  | [] => []
  | (k', v') :: o' =>
      if decide (k' = k) then (k', v) :: o' else (k', v') :: obj_replace o' k v
  end.

(** A new array-index key goes before the first key that is not an array
    index or is a larger one. *)
Fixpoint obj_insert_index {V} (o : JsObject V) (n : N) (k : string) (v : V)
  : JsObject V :=
  match o with
  | [] => [(k, v)]
  | (k', v') :: o' =>
      match array_index k' with
      | Some m =>
          if (m <? n)%N then (k', v') :: obj_insert_index o' n k v
          else (k, v) :: o
      | None => (k, v) :: o
      end
  end.

(** [o[k] = v] on an ordinary object, as far as its own properties go.
    A key that the object has keeps its place; a key that it does not have
    is created, except [__proto__]: that assignment reaches the setter
    inherited from [Object.prototype], which replaces the prototype of the
    object and creates no property.  The prototype itself is not
    represented: [Object.keys] and the readers of the update clause see
    own properties only, and the values that become a prototype here, raw
    SQL fragments, bring no setter that a later assignment could reach. *)
Definition obj_set {V} (o : JsObject V) (k : string) (v : V) : JsObject V :=
  if obj_has o k then obj_replace o k v
  else if decide (k = "__proto__") then o
  else
    match array_index k with
    | Some n => obj_insert_index o n k v
    | None => o ++ [(k, v)]
    end.

(** [k] is enumerated before [k'] in every object that holds both, or the
    two are ordinary keys, which are enumerated in creation order. *)
Definition key_before (k k' : string) : bool :=
  match array_index k, array_index k' with
  | Some m, Some n => (m <? n)%N
  | Some _, None => true
  | None, Some _ => false
  | None, None => true
  end.

(** The keys of an object are distinct and its array-index keys come first,
    in ascending order. *)
Fixpoint key_order (ks : list string) : bool :=
  match ks with
  | [] => true
  | k :: ks' =>
      forallb (key_before k) ks' && bool_decide (k ∉ ks') && key_order ks'
  end.

Definition wf_object {V} (o : JsObject V) : Prop :=
  key_order (Object_keys o) = true.

(** [a.includes(x)] on an array of strings *)
Fixpoint includes (a : list string) (x : string) : bool :=
  match a with
  | [] => false
  | y :: a' => if decide (y = x) then true else includes a' x
  end.

(** [l.reduce(f, init)] with a callback that may throw *)
Fixpoint reduce {A B} (f : B → A → result B) (l : list A) (acc : B)
  : result B :=
  match l with
  | [] => Ok acc
  | x :: l' => acc' ← f acc x; reduce f l' acc'
  end.

(** ** Tables *)

(** A column descriptor: only [name], the storage name, is read here. *)
Record Column : Type := {
  name : string;
  columnType : string;
  notNull : bool
}.

(** A table, with its columns keyed by their logical identifiers. *)
Record Table : Type := {
  tableName : string;
  columns : JsObject Column
}.

Definition getTableColumns (table : Table) : JsObject Column :=
  columns table.

(** A raw SQL fragment, the value of [sql.raw(s)]. *)
Inductive SQL : Type :=
| sql_raw (s : string).

#[global] Instance SQL_eq_dec : EqDecision SQL.
Proof. solve_decision. Defined.

(** Reading [.name] of [allColumns[column]]; on [undefined] the property
    access throws. *)
Definition column_name (allColumns : JsObject Column) (column : string)
  : result string :=
  match obj_get allColumns column with
  | Some c => Ok (name c)
  | None => Throw (TypeError "Cannot read properties of undefined")
  end.

(** ** build-conflict-update-columns.ts *)

Definition buildConflictUpdateColumns (table : Table)
    (excludeColumns : list string) : result (JsObject SQL) :=
  let allColumns := getTableColumns table in
  let columnsToUpdate :=
    List.filter (λ column, negb (includes excludeColumns column))
      (Object_keys allColumns) in
  reduce
    (λ acc column,
       colName ← column_name allColumns column;
       Ok (obj_set acc column (sql_raw ("excluded." +:+ colName))))
    columnsToUpdate
    [].

(** The callback of the [reduce] in [buildConflictUpdateColumns]. *)
Local Abbreviation set_excluded allColumns :=
  (λ acc column,
     colName ← column_name allColumns column;
     Ok (obj_set acc column (sql_raw ("excluded." +:+ colName)))).

(** The reference to the proposed row's value for a column. *)
Local Abbreviation excluded_ref :=
  (λ c : Column, sql_raw ("excluded." +:+ name c)).

(** The table of the specification's scenario; the identifier [updatedAt]
    is stored as [updated_at]. *)
Definition users_columns : JsObject Column := [
  ("id", {| name := "id"; columnType := "integer"; notNull := true |});
  ("email", {| name := "email"; columnType := "text"; notNull := true |});
  ("updatedAt",
    {| name := "updated_at"; columnType := "timestamp"; notNull := false |})
].

Definition users : Table :=
  {| tableName := "users"; columns := users_columns |}.

(** A table with a column whose identifier is [__proto__]. *)
Definition proto_columns : JsObject Column := [
  ("a", {| name := "a"; columnType := "text"; notNull := false |});
  ("__proto__", {| name := "proto"; columnType := "text"; notNull := false |});
  ("z", {| name := "z"; columnType := "text"; notNull := false |})
].

Definition proto_table : Table :=
  {| tableName := "t"; columns := proto_columns |}.

(** ** The first-row helpers (utils) *)

(** The values an array of results may hold.  Numbers are IEEE doubles,
    of which only the class (zero, NaN, other) matters below. *)
Inductive JsValue : Type :=
| JsUndefined
| JsNull
| JsBoolean (b : bool)
| JsNumber (x : SpecFloat.spec_float)
| JsBigInt (z : Z)
| JsString (s : string)
| JsRecord (fields : list (string * JsValue)).

(** The truthiness that [!first] and [c ? a : b] test. *)
Definition ToBoolean (v : JsValue) : bool :=
  match v with
  | JsUndefined | JsNull => false
  | JsBoolean b => b
  | JsNumber (SpecFloat.S754_zero _) | JsNumber SpecFloat.S754_nan => false
  | JsNumber _ => true
  | JsBigInt z => negb (z =? 0)%Z
  | JsString s => negb (bool_decide (s = ""))
  | JsRecord _ => true
  end.

(** [values[i]]; reading past the end gives [undefined]. *)
Definition array_get (values : list JsValue) (i : nat) : JsValue :=
  default JsUndefined (values !! i).

Definition takeFirstOrNull (values : list JsValue) : JsValue :=
  if (0 <? length values)%nat then array_get values 0 else JsNull.

Definition takeFirstOrThrow (items : list JsValue) : result JsValue :=
  let first := takeFirstOrNull items in
  if negb (ToBoolean first) then Throw (Error "First item not found")
  else Ok first.

(** ** upsert-record.ts *)

(** A record to write and a row read back: column identifier to value. *)
Definition InsertValue : Type := JsObject JsValue.
Definition Row : Type := JsObject JsValue.

(** [IndexColumn | IndexColumn[]] *)
Inductive ConflictTarget : Type :=
| OneColumn (c : Column)
| ManyColumns (cs : list Column).

(** The argument of [onConflictDoUpdate]. *)
Record OnConflictConfig : Type := {
  target : ConflictTarget;
  set : JsObject SQL
}.

(** The query builder that [db] gives access to.  It is not part of the
    repository: every method is a parameter that may return or throw, and
    [execute] is what settling the returned query does (the statement is
    sent and its rows, or its failure, come back). *)
Class QueryBuilder (Db InsertBuilder InsertQuery : Type) : Type := {
  insert : Db → Table → result InsertBuilder;
  values : InsertBuilder → InsertValue → result InsertQuery;
  onConflictDoUpdate : InsertQuery → OnConflictConfig → result InsertQuery;
  returning : InsertQuery → result InsertQuery;
  execute : InsertQuery → result (list Row)
}.

(** The calls a run makes, in order. *)
Inductive Call : Type :=
| call_insert (table : Table)
| call_values (data : InsertValue)
| call_buildConflictUpdateColumns (table : Table)
    (excludeColumns : list string)
| call_onConflictDoUpdate (config : OnConflictConfig)
| call_returning
| call_execute.

(** A computation with the log of the calls it made. *)
Definition Traced (A : Type) : Type := list Call * result A.

#[global] Instance Traced_ret : MRet Traced := λ A a, ([], Ok a).
#[global] Instance Traced_bind : MBind Traced := λ A B f m,
  match m with
  | (t, Ok a) => let '(t', r) := f a in (t ++ t', r)
  | (t, Throw e) => (t, Throw e)
  end.

Definition call {A} (c : Call) (r : result A) : Traced A := ([c], r).

Definition trace {A} (m : Traced A) : list Call := m.1.
Definition outcome {A} (m : Traced A) : result A := m.2.

Section UpsertRecord.
Context {Db InsertBuilder InsertQuery : Type}.
Context `{qb : !QueryBuilder Db InsertBuilder InsertQuery}.

(** The outcome is that of the promise the [async] function returns;
    an omitted [excludeColumns] is [None]. *)
Definition upsertRecord (db : Db) (table : Table) (data : InsertValue)
    (conflictColumns : ConflictTarget)
    (excludeColumns : option (list string)) : Traced (list Row) :=
  let excludeColumns := default [] excludeColumns in
  b ← call (call_insert table) (insert db table);
  q ← call (call_values data) (values b data);
  columnsToSet ←
    call (call_buildConflictUpdateColumns table excludeColumns)
      (buildConflictUpdateColumns table excludeColumns);
  let config := {| target := conflictColumns; set := columnsToSet |} in
  q ← call (call_onConflictDoUpdate config) (onConflictDoUpdate q config);
  q ← call call_returning (returning q);
  call call_execute (execute q).
End UpsertRecord.

(** The calls of a trace that invoke the column-set builder, and those that
    send a statement. *)
Definition is_build_call (c : Call) : bool :=
  match c with
  | call_buildConflictUpdateColumns _ _ => true
  | _ => false
  end.

Definition is_execute_call (c : Call) : bool :=
  match c with
  | call_execute => true
  | _ => false
  end.

(** A query builder for examples: its methods record what they are given
    and the database is the function that answers a statement. *)
Module Mock.

Record InsertStatement : Type := {
  into : Table;
  record : InsertValue;
  onConflict : option OnConflictConfig;
  withReturning : bool
}.

Definition Db : Type := InsertStatement → result (list Row).

#[global] Instance builder :
  QueryBuilder Db (Db * Table) (Db * InsertStatement) := {|
  insert db table := Ok (db, table);
  values b data :=
    Ok (b.1, {| into := b.2; record := data; onConflict := None;
                withReturning := false |});
  onConflictDoUpdate q config :=
    Ok (q.1, {| into := into q.2; record := record q.2;
                onConflict := Some config;
                withReturning := withReturning q.2 |});
  returning q :=
    Ok (q.1, {| into := into q.2; record := record q.2;
                onConflict := onConflict q.2; withReturning := true |});
  execute q := q.1 q.2
|}.

(** A database that stores the record and hands it back. *)
Definition accepting : Db := λ s, Ok [record s].

(** A database that has lost its connection. *)
Definition unreachable : Db :=
  λ _, Throw (DriverError "ECONNREFUSED" "connection refused").

(** A client whose [insert] throws. *)
Definition closed_client :
  QueryBuilder unit (Db * Table) (Db * InsertStatement) := {|
  insert _ _ := Throw (DriverError "ECLOSED" "client is closed");
  values b data := values (QueryBuilder := builder) b data;
  onConflictDoUpdate q config :=
    onConflictDoUpdate (QueryBuilder := builder) q config;
  returning q := returning (QueryBuilder := builder) q;
  execute q := execute (QueryBuilder := builder) q
|}.

Definition alice : InsertValue :=
  [("id", JsNumber (S754_finite false 1 0)); ("email", JsString "a@x.com")].

(** A builder that refuses an update clause without entries, as the
    PostgreSQL builder of the query builder does. *)
Definition strict_builder :
  QueryBuilder Db (Db * Table) (Db * InsertStatement) := {|
  insert db table := insert (QueryBuilder := builder) db table;
  values b data := values (QueryBuilder := builder) b data;
  onConflictDoUpdate q config :=
    match set config with
    | [] => Throw (Error "No values to set")
    | _ :: _ => onConflictDoUpdate (QueryBuilder := builder) q config
    end;
  returning q := returning (QueryBuilder := builder) q;
  execute q := execute (QueryBuilder := builder) q
|}.

End Mock.

(** ** The same builder on a store of mutable objects *)

(** Objects have identity and can be mutated through any reference to
    them.  The store maps a reference to the object it denotes; the
    arrays made by [Object.keys] and [filter] never leave the function and
    are kept as values. *)
Module Store.

Inductive cell : Type :=
| ColumnsObject (o : JsObject Column)
| StringArray (a : list string)
| SqlObject (o : JsObject SQL).

Abbreviation loc := positive.
Abbreviation heap := (gmap positive cell).

(** A table refers to its columns object. *)
Record Table : Type := {
  tableName : string;
  columns : loc
}.

Definition M (A : Type) : Type := heap → result A * heap.

#[global] Instance M_ret : MRet M := λ A a h, (Ok a, h).
#[global] Instance M_bind : MBind M := λ A B f m h,
  match m h with
  | (Ok a, h') => f a h'
  | (Throw e, h') => (Throw e, h')
  end.

(** [getTableColumns] hands out the table's own columns object. *)
Definition getTableColumns (table : Table) : M loc :=
  mret (columns table).

(** [Object.keys(o)] of a columns object or of a mapping, the two kinds of
    object it is given here. *)
Definition Object_keys (o : loc) : M (list string) := λ h,
  match h !! o with
  | Some (ColumnsObject c) => (Ok (c.*1), h)
  | Some (SqlObject c) => (Ok (c.*1), h)
  | _ => (Throw (TypeError "Object.keys: not an object"), h)
  end.

(** [a.includes(x)] of an array of strings *)
Definition includes (a : loc) (x : string) : M bool := λ h,
  match h !! a with
  | Some (StringArray l) => (Ok (includes l x), h)
  | _ => (Throw (TypeError "includes is not a function"), h)
  end.

Fixpoint filter {A} (p : A → M bool) (l : list A) : M (list A) :=
  match l with
  | [] => mret []
  | x :: l' =>
      b ← p x;
      r ← filter p l';
      mret (if b : bool then x :: r else r)
  end.

Fixpoint reduce {A B} (f : B → A → M B) (l : list A) (acc : B) : M B :=
  match l with
  | [] => mret acc
  | x :: l' => acc' ← f acc x; reduce f l' acc'
  end.

(** [{}]: a new object, at a reference the store does not hold yet. *)
Definition new_object : M loc := λ h,
  let l := fresh (dom h) in (Ok l, <[l := SqlObject []]> h).

Definition column_name (allColumns : loc) (column : string) : M string :=
  λ h,
  match h !! allColumns with
  | Some (ColumnsObject c) =>
      match obj_get c column with
      | Some d => (Ok (name d), h)
      | None => (Throw (TypeError "Cannot read properties of undefined"), h)
      end
  | _ => (Throw (TypeError "Cannot read properties of undefined"), h)
  end.

(** [acc[column] = v] *)
Definition set_property (acc : loc) (column : string) (v : SQL) : M unit :=
  λ h,
  match h !! acc with
  | Some (SqlObject o) => (Ok (), <[acc := SqlObject (obj_set o column v)]> h)
  | _ => (Throw (TypeError "Cannot set properties"), h)
  end.

Definition buildConflictUpdateColumns (table : Table)
    (excludeColumns : loc) : M loc :=
  allColumns ← getTableColumns table;
  keys ← Object_keys allColumns;
  columnsToUpdate ←
    filter (λ column, b ← includes excludeColumns column; mret (negb b))
      keys;
  init ← new_object;
  reduce
    (λ acc column,
       colName ← column_name allColumns column;
       set_property acc column (sql_raw ("excluded." +:+ colName));;
       mret acc)
    columnsToUpdate
    init.

(** The scenario's table and an exclusion array, in a store. *)
Definition users_table : Table :=
  {| tableName := "users"; columns := 1%positive |}.

Definition users_heap : heap :=
  <[1%positive := ColumnsObject users_columns]>
    (<[2%positive := StringArray ["id"]]> ∅).

End Store.

(** ** The SQL helpers (utils) *)

(** The helpers [distinct], [max], [min], [count], [coalesce] and [now] are
    one tagged template each.  A tagged template is the call of its tag on
    the literal segments and on the values of the placeholders, and that
    application is what is kept here; the tag [sql] itself belongs to the
    query builder. *)
Module Utils.

(** What stands in a placeholder, and what the tag returns. *)
Inductive Sql : Type :=
| raw (r : SQL)
| column_ref (c : Column)
| sql (strings : list string) (params : list Sql).

Definition distinct (column : Column) : Sql :=
  sql ["distinct("; ")"] [column_ref column].

Definition max (column : Column) : Sql :=
  sql ["max("; ")"] [column_ref column].

Definition min (column : Column) : Sql :=
  sql ["min("; ")"] [column_ref column].

Definition count (column : Column) : Sql :=
  sql ["cast(count("; ") as integer)"] [column_ref column].

Definition coalesce (value defaultValue : Sql) : Sql :=
  sql ["coalesce("; ", "; ")"] [value; defaultValue].

(** [localtime] is optional: [None] is an omitted argument. *)
Definition now (localtime : option bool) : Sql :=
  if default false localtime then sql ["datetime('now', 'localtime')"] []
  else sql ["datetime('now')"] [].

(** The text of a template: its segments with the texts of the values in
    between, as a template literal reads. *)
Fixpoint interleave (strings : list string) (texts : list string) : string :=
  match strings with
  | [] => ""
  | s :: strings' =>
      match texts with
      | [] => s +:+ interleave strings' []
      | t :: texts' => s +:+ t +:+ interleave strings' texts'
      end
  end.

(** The text of an expression, given the text that stands for a column. *)
Fixpoint text (column_text : Column → string) (q : Sql) : string :=
  match q with
  | raw (sql_raw s) => s
  | column_ref c => column_text c
  | sql strings params =>
      interleave strings (List.map (text column_text) params)
  end.

(** Reading a text from nesting depth [d]: the depth at its end, or [None]
    when a closing parenthesis has no opening one. *)
Fixpoint scan (d : nat) (s : string) : option nat :=
  match s with
  | EmptyString => Some d
  | String a r =>
      if Ascii.eqb a "(" then scan (S d) r
      else if Ascii.eqb a ")" then
        match d with
        | O => None
        | S d' => scan d' r
        end
      else scan d r
  end.

Definition balanced (s : string) : Prop := scan 0 s = Some 0.

End Utils.

(** * Properties *)

(** ** Facts about the object model *)

Section ObjectFacts.
Context {V : Type}.
Implicit Types (o : JsObject V) (k : string) (v : V).

Lemma includes_true (a : list string) (x : string) :
  includes a x = true ↔ x ∈ a.
Proof.
  induction a as [|y a IH]; simpl.
  - split; [discriminate | by intros ?%elem_of_nil].
  - rewrite elem_of_cons. destruct (decide (y = x)) as [->|Hne].
    + naive_solver.
    + rewrite IH. naive_solver.
Qed.

Lemma includes_false (a : list string) (x : string) :
  includes a x = false ↔ x ∉ a.
Proof.
  rewrite <- includes_true. destruct (includes a x); naive_solver.
Qed.

Lemma obj_has_true o k : obj_has o k = true ↔ k ∈ Object_keys o.
Proof. unfold obj_has. by rewrite bool_decide_eq_true. Qed.

Lemma obj_get_is_Some o k : is_Some (obj_get o k) ↔ k ∈ Object_keys o.
Proof.
  unfold Object_keys.
  induction o as [|[k' v'] o IH]; simpl.
  - rewrite elem_of_nil. split; [by intros [? ?] | done].
  - rewrite elem_of_cons. destruct (decide (k' = k)) as [->|Hne].
    + split; eauto.
    + rewrite IH. naive_solver.
Qed.

Lemma keys_replace o k v : Object_keys (obj_replace o k v) = Object_keys o.
Proof.
  unfold Object_keys.
  induction o as [|[k' v'] o IH]; simpl; [done|].
  destruct (decide (k' = k)); csimpl; [done | by rewrite IH].
Qed.

Lemma elem_of_keys_insert_index o n k v k' :
  k' ∈ Object_keys (obj_insert_index o n k v)
  ↔ k' = k ∨ k' ∈ Object_keys o.
Proof.
  unfold Object_keys.
  induction o as [|[k1 v1] o IH]; simpl.
  - rewrite list_elem_of_singleton, elem_of_nil. naive_solver.
  - destruct (array_index k1) as [m|]; [destruct (m <? n)%N|]; simpl;
      rewrite ?elem_of_cons, ?IH; simpl; naive_solver.
Qed.

(** An assignment to [__proto__] on an object without such a property of
    its own leaves the own properties as they are. *)
Lemma obj_set_proto o v :
  "__proto__" ∉ Object_keys o → obj_set o "__proto__" v = o.
Proof.
  intros Hnin. unfold obj_set. destruct (obj_has o "__proto__") eqn:Hhas.
  - by apply obj_has_true in Hhas.
  - by rewrite decide_True.
Qed.

Lemma elem_of_keys_set o k v k' :
  k ≠ "__proto__" →
  k' ∈ Object_keys (obj_set o k v) ↔ k' = k ∨ k' ∈ Object_keys o.
Proof.
  intros Hk. unfold obj_set. destruct (obj_has o k) eqn:Hhas.
  - apply obj_has_true in Hhas. rewrite keys_replace. naive_solver.
  - rewrite decide_False by done. destruct (array_index k) as [n|].
    + apply elem_of_keys_insert_index.
    + unfold Object_keys. rewrite fmap_app, elem_of_app. simpl.
      rewrite list_elem_of_singleton. naive_solver.
Qed.

Lemma obj_get_replace o k v k' :
  k ∈ Object_keys o →
  obj_get (obj_replace o k v) k'
  = if decide (k = k') then Some v else obj_get o k'.
Proof.
  unfold Object_keys.
  induction o as [|[k1 v1] o IH]; simpl.
  - by intros ?%elem_of_nil.
  - rewrite elem_of_cons. intros Hin.
    destruct (decide (k1 = k)) as [->|Hne]; simpl.
    + destruct (decide (k = k')); done.
    + destruct (decide (k1 = k')) as [->|Hne'].
      * destruct (decide (k = k')); congruence.
      * apply IH. naive_solver.
Qed.

Lemma obj_get_insert_index o n k v k' :
  k ∉ Object_keys o →
  obj_get (obj_insert_index o n k v) k'
  = if decide (k = k') then Some v else obj_get o k'.
Proof.
  unfold Object_keys.
  induction o as [|[k1 v1] o IH]; simpl; [done|].
  rewrite not_elem_of_cons. intros [Hne Hnin].
  destruct (array_index k1) as [m|]; [destruct (m <? n)%N|]; simpl;
    try done.
  destruct (decide (k1 = k')) as [->|Hne'].
  - destruct (decide (k = k')); congruence.
  - by apply IH.
Qed.

Lemma obj_get_app_singleton o k v k' :
  k ∉ Object_keys o →
  obj_get (o ++ [(k, v)]) k'
  = if decide (k = k') then Some v else obj_get o k'.
Proof.
  unfold Object_keys.
  induction o as [|[k1 v1] o IH]; simpl; [done|].
  rewrite not_elem_of_cons. intros [Hne Hnin].
  destruct (decide (k1 = k')) as [->|Hne'].
  - destruct (decide (k = k')); congruence.
  - by apply IH.
Qed.

(** Reading after writing, for a key other than [__proto__]. *)
Lemma obj_get_set o k v k' :
  k ≠ "__proto__" →
  obj_get (obj_set o k v) k'
  = if decide (k = k') then Some v else obj_get o k'.
Proof.
  intros Hk. unfold obj_set. destruct (obj_has o k) eqn:Hhas.
  - apply obj_get_replace. by apply obj_has_true.
  - assert (k ∉ Object_keys o) as Hnin.
    { intros Hin%obj_has_true. congruence. }
    rewrite decide_False by done.
    destruct (array_index k) as [n|].
    + by apply obj_get_insert_index.
    + by apply obj_get_app_singleton.
Qed.

(** A new key that no present key has to follow is put last. *)
Lemma obj_insert_index_last o n k v :
  array_index k = Some n →
  Forall (λ k', key_before k' k = true) (Object_keys o) →
  obj_insert_index o n k v = o ++ [(k, v)].
Proof.
  intros Hk. unfold Object_keys.
  induction o as [|[k1 v1] o IH]; csimpl; [done|].
  intros [Hb Hall]%Forall_cons_1.
  unfold key_before in Hb. rewrite Hk in Hb.
  destruct (array_index k1) as [m|]; [|done].
  rewrite Hb. by rewrite IH.
Qed.

Lemma obj_set_last o k v :
  k ≠ "__proto__" →
  k ∉ Object_keys o →
  Forall (λ k', key_before k' k = true) (Object_keys o) →
  obj_set o k v = o ++ [(k, v)].
Proof.
  intros Hproto Hnin Hall. unfold obj_set.
  destruct (obj_has o k) eqn:Hhas.
  - apply obj_has_true in Hhas. done.
  - rewrite decide_False by done.
    destruct (array_index k) as [n|] eqn:Hk; [|done].
    by apply obj_insert_index_last.
Qed.

Lemma obj_get_NoDup o k v :
  NoDup (Object_keys o) → (k, v) ∈ o → obj_get o k = Some v.
Proof.
  unfold Object_keys.
  induction o as [|[k1 v1] o IH]; csimpl.
  - by intros _ ?%elem_of_nil.
  - intros [Hnin Hnd]%NoDup_cons [Heq|Hin]%elem_of_cons.
    + simplify_eq. by rewrite decide_True.
    + destruct (decide (k1 = k)) as [->|Hne]; [|by apply IH].
      exfalso. apply Hnin. apply list_elem_of_fmap. by exists (k, v).
Qed.

End ObjectFacts.

(** ** Array-index keys *)

Lemma digit_of_Some a d :
  digit_of a = Some d → (d < 10)%N ∧ N_of_ascii a = (d + 48)%N.
Proof.
  unfold digit_of.
  destruct (48 <=? N_of_ascii a)%N eqn:Hlo; [|done].
  destruct (N_of_ascii a <=? 57)%N eqn:Hhi; [|done].
  apply N.leb_le in Hlo, Hhi. intros [= <-]. lia.
Qed.

Lemma digit_of_inj a a' d :
  digit_of a = Some d → digit_of a' = Some d → a = a'.
Proof.
  intros [_ Ha]%digit_of_Some [_ Ha']%digit_of_Some.
  rewrite <- (ascii_N_embedding a), <- (ascii_N_embedding a'). congruence.
Qed.

(** The numeral read after [acc] lies in the interval that [acc] opens. *)
Lemma parse_digits_bounds s :
  ∀ acc n,
  parse_digits acc s = Some n →
  (acc * 10 ^ N.of_nat (String.length s) ≤ n
   < (acc + 1) * 10 ^ N.of_nat (String.length s))%N.
Proof.
  induction s as [|a r IH]; intros acc n; simpl parse_digits.
  - intros [= <-]. simpl. lia.
  - destruct (digit_of a) as [d|] eqn:Hd; [|done].
    intros Hn%IH. apply digit_of_Some in Hd as [Hd _].
    change (String.length (String a r)) with (S (String.length r)).
    rewrite Nat2N.inj_succ, N.pow_succ_r'.
    set (p := (10 ^ N.of_nat (String.length r))%N) in *. nia.
Qed.

Lemma parse_digits_inj s :
  ∀ s' acc n,
  String.length s = String.length s' →
  parse_digits acc s = Some n →
  parse_digits acc s' = Some n →
  s = s'.
Proof.
  induction s as [|a r IH]; intros [|a' r'] acc n Hlen; try done.
  simpl parse_digits.
  destruct (digit_of a) as [d|] eqn:Hd; [|done].
  destruct (digit_of a') as [d'|] eqn:Hd'; [|done].
  intros Hn Hn'. injection Hlen as Hlen.
  assert (d = d') as <-.
  { apply parse_digits_bounds in Hn, Hn'. rewrite <- Hlen in Hn'.
    set (p := (10 ^ N.of_nat (String.length r))%N) in *.
    assert (0 < p)%N by (apply N.neq_0_lt_0, N.pow_nonzero; lia). nia. }
  rewrite (digit_of_inj _ _ _ Hd Hd').
  f_equal. by apply (IH r' (10 * acc + d)%N n).
Qed.

(** An array index is written in one way: it is ["0"], or its numeral has
    no leading zero and so determines its length. *)
Lemma array_index_Some s n :
  array_index s = Some n →
  (s = "0" ∧ n = 0%N)
  ∨ (parse_digits 0 s = Some n
     ∧ ∃ l, String.length s = S l
            ∧ (10 ^ N.of_nat l ≤ n < 10 ^ N.of_nat (S l))%N).
Proof.
  destruct s as [|a r]; [done|]. unfold array_index.
  destruct (Ascii.eqb a "0") eqn:Ha.
  - apply Ascii.eqb_eq in Ha as ->. destruct r; [|done].
    intros [= <-]. by left.
  - destruct (parse_digits 0 (String a r)) as [n'|] eqn:Hp; [|done].
    destruct (n' <? 4294967295)%N; [|done]. intros [= ->].
    right. split; [done|]. exists (String.length r). split; [done|].
    simpl in Hp. destruct (digit_of a) as [d|] eqn:Hd; [|done].
    assert (d ≠ 0%N) as Hd0.
    { intros ->. apply Ascii.eqb_neq in Ha. apply Ha.
      by apply (digit_of_inj _ _ 0%N). }
    apply digit_of_Some in Hd as [Hd _].
    apply parse_digits_bounds in Hp.
    rewrite Nat2N.inj_succ, N.pow_succ_r'.
    set (p := (10 ^ N.of_nat (String.length r))%N) in *. nia.
Qed.

Lemma array_index_inj k k' n :
  array_index k = Some n → array_index k' = Some n → k = k'.
Proof.
  intros [[-> ->]|(Hp & l & Hl & Hn)]%array_index_Some
         [[-> Hn']|(Hp' & l' & Hl' & Hn')]%array_index_Some; try done.
  - assert (0 < 10 ^ N.of_nat l')%N
      by (apply N.neq_0_lt_0, N.pow_nonzero; lia).
    lia.
  - assert (0 < 10 ^ N.of_nat l)%N
      by (apply N.neq_0_lt_0, N.pow_nonzero; lia).
    lia.
  - apply (parse_digits_inj k k' 0%N n); [|done..].
    rewrite Hl, Hl'. f_equal.
    destruct (decide (l = l')) as [|Hne]; [done|]. exfalso.
    assert (S l ≤ l' ∨ S l' ≤ l)%nat as [Hle|Hle] by lia.
    + assert (10 ^ N.of_nat (S l) ≤ 10 ^ N.of_nat l')%N
        by (apply N.pow_le_mono_r; lia). lia.
    + assert (10 ^ N.of_nat (S l') ≤ 10 ^ N.of_nat l)%N
        by (apply N.pow_le_mono_r; lia). lia.
Qed.

(** ** Facts about the enumeration order *)

Lemma key_order_cons k ks :
  key_order (k :: ks) = true
  ↔ Forall (λ k', key_before k k' = true) ks
    ∧ (k ∉ ks) ∧ key_order ks = true.
Proof.
  simpl. rewrite !andb_true_iff, bool_decide_eq_true.
  rewrite forallb_forall, Forall_forall.
  setoid_rewrite <- list_elem_of_In. naive_solver.
Qed.

Lemma key_order_NoDup ks : key_order ks = true → NoDup ks.
Proof.
  induction ks as [|k ks IH]; [constructor|].
  rewrite key_order_cons, NoDup_cons. naive_solver.
Qed.

(** What stands before a key in an ordered list is distinct from it and
    enumerated before it. *)
Lemma key_order_middle a k b :
  key_order (a ++ k :: b) = true →
  (k ∉ a) ∧ Forall (λ k', key_before k' k = true) a.
Proof.
  induction a as [|x a IH]; simpl app.
  - intros _. split; [apply not_elem_of_nil | constructor].
  - intros (Hall & Hnin & Hord)%key_order_cons.
    apply Forall_app in Hall as [_ [Hxk _]%Forall_cons_1].
    apply not_elem_of_app in Hnin as [_ [Hne _]%not_elem_of_cons].
    destruct (IH Hord) as [Hnin' Hall'].
    split; [apply not_elem_of_cons; naive_solver | by constructor].
Qed.

Lemma key_order_filter (p : string → bool) ks :
  key_order ks = true → key_order (List.filter p ks) = true.
Proof.
  induction ks as [|k ks IH]; simpl List.filter; [done|].
  rewrite key_order_cons. intros (Hall & Hnin & Hord).
  destruct (p k); [|by apply IH].
  rewrite key_order_cons. split_and!.
  - rewrite Forall_forall in Hall |- *.
    intros x Hx%list_elem_of_In%filter_In. apply Hall.
    apply list_elem_of_In. tauto.
  - intros Hx%list_elem_of_In%filter_In. apply Hnin.
    apply list_elem_of_In. tauto.
  - by apply IH.
Qed.

Lemma key_order_snoc ks k :
  key_order ks = true →
  k ∉ ks →
  Forall (λ k', key_before k' k = true) ks →
  key_order (ks ++ [k]) = true.
Proof.
  induction ks as [|x ks IH]; [done|].
  intros (Hall & Hnin & Hord)%key_order_cons
         [Hne Hnk]%not_elem_of_cons [Hxk Hks]%Forall_cons_1.
  simpl app. apply key_order_cons. split_and!.
  - apply Forall_app. split; [done | by constructor].
  - rewrite not_elem_of_app, list_elem_of_singleton. naive_solver.
  - by apply IH.
Qed.

(** Assignment keeps an object well formed, so every object built from
    the empty one by assignments is. *)
Lemma obj_insert_index_wf {V} (o : JsObject V) n k v :
  array_index k = Some n →
  k ∉ Object_keys o →
  wf_object o →
  wf_object (obj_insert_index o n k v).
Proof.
  intros Hk. unfold wf_object, Object_keys.
  induction o as [|[k1 v1] o IH]; [done|]. csimpl.
  intros [Hne Hnin]%not_elem_of_cons (Hall & Hk1 & Hord)%key_order_cons.
  assert (key_before k k1 = true → key_order (k :: k1 :: o.*1) = true)
    as Hfront.
  { intros Hlt. apply key_order_cons. split_and!.
    - constructor; [exact Hlt|].
      rewrite Forall_forall in Hall |- *. intros x Hx.
      specialize (Hall x Hx). unfold key_before in *. rewrite Hk in *.
      destruct (array_index k1) as [m|]; destruct (array_index x) as [m'|];
        try done.
      apply N.ltb_lt in Hlt, Hall. apply N.ltb_lt. lia.
    - apply not_elem_of_cons. done.
    - apply key_order_cons. done. }
  destruct (array_index k1) as [m|] eqn:Hk1i.
  - destruct (m <? n)%N eqn:Hmn; csimpl.
    + apply key_order_cons. split_and!.
      * rewrite Forall_forall in Hall |- *.
        intros x [->|Hx]%(elem_of_keys_insert_index o n k v); [|by apply Hall].
        unfold key_before. by rewrite Hk1i, Hk.
      * intros [->|Hx]%(elem_of_keys_insert_index o n k v); done.
      * by apply IH.
    + apply Hfront. unfold key_before. rewrite Hk, Hk1i.
      apply N.ltb_lt. apply N.ltb_ge in Hmn.
      assert (n ≠ m); [|lia].
      intros ->. apply Hne. by apply (array_index_inj _ _ m).
  - csimpl. apply Hfront. unfold key_before. by rewrite Hk, Hk1i.
Qed.

Lemma obj_set_wf {V} (o : JsObject V) k v :
  wf_object o → wf_object (obj_set o k v).
Proof.
  intros Hwf. unfold obj_set. destruct (obj_has o k) eqn:Hhas.
  - unfold wf_object. by rewrite keys_replace.
  - assert (k ∉ Object_keys o) as Hnin.
    { intros Hin%obj_has_true. congruence. }
    destruct (decide (k = "__proto__")) as [|Hproto]; [done|].
    destruct (array_index k) as [n|] eqn:Hk.
    + by apply obj_insert_index_wf.
    + unfold wf_object, Object_keys. rewrite fmap_app. csimpl.
      apply key_order_snoc; [done..|].
      apply Forall_forall. intros x _. unfold key_before. rewrite Hk.
      by destruct (array_index x).
Qed.

Lemma wf_object_assignments {V} (l : list (string * V)) (o : JsObject V) :
  wf_object o → wf_object (fold_left (λ acc p, obj_set acc p.1 p.2) l o).
Proof.
  revert o. induction l as [|[k v] l IH]; intros o Hwf; [done|].
  simpl. by apply IH, obj_set_wf.
Qed.

(** ** buildConflictUpdateColumns *)

Lemma elem_of_columnsToUpdate (ks E : list string) (k : string) :
  k ∈ List.filter (λ column, negb (includes E column)) ks
  ↔ k ∈ ks ∧ k ∉ E.
Proof.
  rewrite list_elem_of_In, filter_In, <- list_elem_of_In.
  rewrite negb_true_iff, includes_false. done.
Qed.

(** Over keys of the columns object the callback never throws; the
    accumulator gains the keys visited other than [__proto__], each bound
    to the reference built from its descriptor, and nothing else. *)
Lemma reduce_set_excluded (allColumns : JsObject Column) (l : list string) :
  (∀ k, k ∈ l → k ∈ Object_keys allColumns) →
  ∀ acc : JsObject SQL,
  "__proto__" ∉ Object_keys acc →
  ∃ acc',
    reduce (set_excluded allColumns) l acc = Ok acc'
    ∧ (∀ k, k ∈ Object_keys acc'
            ↔ k ∈ Object_keys acc ∨ (k ∈ l ∧ k ≠ "__proto__"))
    ∧ (∀ k, obj_get acc' k
            = if decide (k ∈ l ∧ k ≠ "__proto__")
              then excluded_ref <$> obj_get allColumns k
              else obj_get acc k).
Proof.
  induction l as [|k0 l IH]; intros Hsub acc Hacc.
  - exists acc. split; [done|]. split.
    + intros k. rewrite elem_of_nil. naive_solver.
    + intros k. rewrite decide_False; [done|].
      intros [[]%elem_of_nil _].
  - assert (k0 ∈ Object_keys allColumns) as Hk0 by (apply Hsub; left).
    apply obj_get_is_Some in Hk0 as [c Hc].
    assert (∀ k, k ∈ l → k ∈ Object_keys allColumns) as Hsub'.
    { intros k Hk. apply Hsub. by right. }
    destruct (decide (k0 = "__proto__")) as [->|Hproto].
    + destruct (IH Hsub' acc Hacc) as (acc' & Hred & Hkeys & Hget).
      exists acc'. split; [|split].
      * simpl. unfold column_name. rewrite Hc. simpl.
        by rewrite (obj_set_proto acc _ Hacc).
      * intros k. rewrite Hkeys, elem_of_cons. naive_solver.
      * intros k. rewrite Hget.
        destruct (decide (k ∈ l ∧ k ≠ "__proto__")) as [[Hin Hk]|Hno].
        -- rewrite decide_True; [done|]. split; [by right | done].
        -- rewrite decide_False; [done|].
           rewrite elem_of_cons. naive_solver.
    + destruct (IH Hsub' (obj_set acc k0 (excluded_ref c)))
        as (acc' & Hred & Hkeys & Hget).
      { rewrite elem_of_keys_set by done. naive_solver. }
      exists acc'. split; [|split].
      * simpl. unfold column_name. rewrite Hc. simpl. exact Hred.
      * intros k. rewrite Hkeys, elem_of_keys_set, elem_of_cons by done.
        naive_solver.
      * intros k. rewrite Hget, obj_get_set by done.
        destruct (decide (k ∈ l ∧ k ≠ "__proto__")) as [[Hin Hk]|Hno].
        -- rewrite decide_True; [done|]. split; [by right | done].
        -- destruct (decide (k0 = k)) as [->|Hne].
           ++ rewrite decide_True; [by rewrite Hc|]. split; [by left | done].
           ++ rewrite decide_False; [done|].
              rewrite elem_of_cons. naive_solver.
Qed.

(** The builder returns, with exactly the keys that are neither excluded
    nor [__proto__], each bound to the reference to its column. *)
Lemma buildConflictUpdateColumns_spec (T : Table) (E : list string) :
  ∃ m,
    buildConflictUpdateColumns T E = Ok m
    ∧ (∀ k, k ∈ Object_keys m
            ↔ k ∈ Object_keys (columns T) ∧ (k ∉ E) ∧ k ≠ "__proto__")
    ∧ (∀ k, k ∈ Object_keys (columns T) → k ∉ E → k ≠ "__proto__" →
            obj_get m k = excluded_ref <$> obj_get (columns T) k).
Proof.
  unfold buildConflictUpdateColumns, getTableColumns.
  set (l := List.filter _ _).
  destruct (reduce_set_excluded (columns T) l)
    with (acc := @nil (string * SQL)) as (m & Hred & Hkeys & Hget).
  { intros k Hk. by apply elem_of_columnsToUpdate in Hk as [? _]. }
  { apply not_elem_of_nil. }
  exists m. split; [exact Hred|]. split.
  - intros k. rewrite Hkeys. unfold l. rewrite elem_of_columnsToUpdate.
    unfold Object_keys at 1. simpl. rewrite elem_of_nil. naive_solver.
  - intros k Hin Hnin Hk. rewrite Hget, decide_True; [done|].
    split; [|done]. by apply elem_of_columnsToUpdate.
Qed.

(** C1. The claim is that the key set of the result is the key set of the
    table's columns minus the exclusion list.  The code misses it on a
    table that has a column identifier [__proto__]: with columns [a],
    [__proto__], [z] and nothing excluded it returns a mapping whose keys
    are [a] and [z] only, and with [a] and [z] excluded it returns the
    empty mapping although one column is not excluded. *)
Theorem buildConflictUpdateColumns_key_set_proto :
  buildConflictUpdateColumns proto_table []
  = Ok [("a", sql_raw "excluded.a"); ("z", sql_raw "excluded.z")]
  ∧ list_to_set ["a"; "z"]
    ≠@{gset string}
    list_to_set (Object_keys (columns proto_table)) ∖ list_to_set []
  ∧ ["a"; "z"] ⊆ Object_keys (columns proto_table)
  ∧ buildConflictUpdateColumns proto_table ["a"; "z"] = Ok []
  ∧ ¬ (Object_keys (columns proto_table) ⊆ ["a"; "z"]).
Proof.
  split_and!; try reflexivity.
  - intros Heq.
    assert ("__proto__" ∈@{gset string} list_to_set ["a"; "z"]) as Hin.
    { rewrite Heq, elem_of_difference, !elem_of_list_to_set.
      split; [|apply not_elem_of_nil].
      right. left. }
    apply elem_of_list_to_set in Hin.
    rewrite !elem_of_cons, elem_of_nil in Hin. naive_solver.
  - intros k Hk. rewrite !elem_of_cons, elem_of_nil in Hk.
    destruct Hk as [->|[->|[]]].
    + left.
    + right. right. left.
  - intros Hall.
    assert ("__proto__" ∈ ["a"; "z"]) as Hin by (apply Hall; right; left).
    rewrite !elem_of_cons, elem_of_nil in Hin. naive_solver.
Qed.


(** C5. The exclusion list may name identifiers that the table does not
    have: the builder returns what it returns for the list restricted to
    the table's identifiers, and it returns rather than throws. *)
Theorem buildConflictUpdateColumns_unknown_ignored (T : Table)
    (E : list string) :
  buildConflictUpdateColumns T E
  = buildConflictUpdateColumns T
      (List.filter (λ e, bool_decide (e ∈ Object_keys (columns T))) E)
  ∧ ∃ m, buildConflictUpdateColumns T E = Ok m.
Proof.
  split.
  - unfold buildConflictUpdateColumns, getTableColumns. f_equal.
    apply filter_ext_in. intros k Hk%list_elem_of_In. f_equal.
    destruct (includes E k) eqn:HE; symmetry.
    + apply includes_true. apply includes_true in HE.
      apply list_elem_of_In, filter_In. split; [by apply list_elem_of_In|].
      by apply bool_decide_eq_true.
    + apply includes_false. apply includes_false in HE.
      intros [HkE _]%list_elem_of_In%filter_In. by apply HE, list_elem_of_In.
  - destruct (buildConflictUpdateColumns_spec T E) as (m & Hrun & _).
    by exists m.
Qed.


(** ** The first-row helpers *)

Lemma takeFirstOrNull_nil : takeFirstOrNull [] = JsNull.
Proof. reflexivity. Qed.

Lemma takeFirstOrNull_cons x t : takeFirstOrNull (x :: t) = x.
Proof. reflexivity. Qed.

(** C10. [takeFirstOrNull] is total: it returns the element at index 0 of
    an array that has a length above zero and [null] for the empty array,
    and what it returns does not depend on the elements after the first. *)
Theorem takeFirstOrNull_first (values : list JsValue) :
  (∀ x, values !! 0 = Some x →
        length values > 0 ∧ takeFirstOrNull values = x)
  ∧ (length values > 0 → takeFirstOrNull values = array_get values 0)
  ∧ (values = [] → takeFirstOrNull values = JsNull)
  ∧ (∀ x t t', takeFirstOrNull (x :: t) = takeFirstOrNull (x :: t')).
Proof.
  split_and!.
  - intros x Hx. destruct values as [|y t]; simplify_eq/=.
    split; [lia | reflexivity].
  - intros Hlen. destruct values as [|y t]; [simpl in Hlen; lia | reflexivity].
  - by intros ->.
  - reflexivity.
Qed.

(** C9. [takeFirstOrThrow] throws [Error('First item not found')] exactly
    when the array is empty or its first element is falsy, which includes
    the arrays [[0]], [[""]], [[false]] and [[null]]; it returns the first
    element exactly when that element is truthy.  So there are non-empty
    arrays on which it throws instead of returning the first element. *)
Theorem takeFirstOrThrow_falsy :
  (∀ items,
     takeFirstOrThrow items = Throw (Error "First item not found")
     ↔ items = [] ∨ ∃ x t, items = x :: t ∧ ToBoolean x = false)
  ∧ (∀ items v,
       takeFirstOrThrow items = Ok v
       ↔ ∃ t, items = v :: t ∧ ToBoolean v = true)
  ∧ takeFirstOrThrow [JsNumber (S754_zero false)]
    = Throw (Error "First item not found")
  ∧ takeFirstOrThrow [JsString ""] = Throw (Error "First item not found")
  ∧ takeFirstOrThrow [JsBoolean false] = Throw (Error "First item not found")
  ∧ takeFirstOrThrow [JsNull] = Throw (Error "First item not found").
Proof.
  split_and!; try reflexivity.
  - intros [|x t]; unfold takeFirstOrThrow;
      rewrite ?takeFirstOrNull_cons, ?takeFirstOrNull_nil; simpl.
    + split; [by left | done].
    + destruct (ToBoolean x) eqn:Hx; simpl.
      * split; [discriminate|].
        intros [?|(? & ? & ? & ?)]; simplify_eq; congruence.
      * split; [|done]. intros _. right. by exists x, t.
  - intros [|x t] v; unfold takeFirstOrThrow;
      rewrite ?takeFirstOrNull_cons, ?takeFirstOrNull_nil; simpl.
    + split; [discriminate | by intros (? & ? & _)].
    + destruct (ToBoolean x) eqn:Hx; simpl.
      * split.
        -- intros [= <-]. by exists t.
        -- by intros (? & [= <- <-] & _).
      * split; [discriminate|]. intros (? & [= <- <-] & ?). congruence.
Qed.

(** ** upsertRecord *)

Section UpsertRecordFacts.
Context {Db InsertBuilder InsertQuery : Type}.
Context `{qb : !QueryBuilder Db InsertBuilder InsertQuery}.

(** The calls of a run in which the builder's methods all return. *)
Local Abbreviation calls_made table data E config :=
  [call_insert table; call_values data;
   call_buildConflictUpdateColumns table E;
   call_onConflictDoUpdate config; call_returning; call_execute].

(** The run, stage by stage. *)
Lemma upsertRecord_run (db : Db) (table : Table) (data : InsertValue)
    (conflictColumns : ConflictTarget)
    (excludeColumns : option (list string)) :
  ∃ m,
    buildConflictUpdateColumns table (default [] excludeColumns) = Ok m
    ∧ let E := default [] excludeColumns in
      let config := {| target := conflictColumns; set := m |} in
      upsertRecord db table data conflictColumns excludeColumns
      = match insert db table with
        | Throw e => ([call_insert table], Throw e)
        | Ok b =>
          match values b data with
          | Throw e => ([call_insert table; call_values data], Throw e)
          | Ok q =>
            match onConflictDoUpdate q config with
            | Throw e => (take 4 (calls_made table data E config), Throw e)
            | Ok q1 =>
              match returning q1 with
              | Throw e => (take 5 (calls_made table data E config), Throw e)
              | Ok q2 => (calls_made table data E config, execute q2)
              end
            end
          end
        end.
Proof.
  destruct (buildConflictUpdateColumns_spec table (default [] excludeColumns))
    as (m & Hm & _).
  exists m. split; [exact Hm|]. simpl.
  unfold upsertRecord, call, mbind, Traced_bind. simpl.
  destruct (insert db table) as [b|e]; [|done].
  destruct (values b data) as [q|e]; [|done].
  rewrite Hm.
  destruct (onConflictDoUpdate q _) as [q1|e]; [|done].
  destruct (returning q1) as [q2|e]; [|done].
  by destruct (execute q2).
Qed.

(** C3, as amended.  The claim is made for every call, but a builder
    method that throws ends the call there.  In a call whose builder
    methods [insert] and [values] return, [upsertRecord] invokes
    [buildConflictUpdateColumns] exactly once, on [table] and on
    [excludeColumns] as given ([[]] when it is omitted), and the calls made
    are an initial part of those listed.  When [onConflictDoUpdate] and
    [returning] return as well, the calls made are exactly those listed:
    one statement is sent, built with [conflictColumns] as its conflict
    target and the mapping returned by [buildConflictUpdateColumns] as its
    update clause, and the outcome is that statement's. *)
Theorem upsertRecord_calls (db : Db) (table : Table) (data : InsertValue)
    (conflictColumns : ConflictTarget)
    (excludeColumns : option (list string))
    (b : InsertBuilder) (q : InsertQuery) :
  insert db table = Ok b →
  values b data = Ok q →
  ∃ m,
    let E := default [] excludeColumns in
    let config := {| target := conflictColumns; set := m |} in
    let run := upsertRecord db table data conflictColumns excludeColumns in
    buildConflictUpdateColumns table E = Ok m
    ∧ List.filter is_build_call (trace run)
      = [call_buildConflictUpdateColumns table E]
    ∧ trace run `prefix_of` calls_made table data E config
    ∧ ∀ q1 q2,
        onConflictDoUpdate q config = Ok q1 →
        returning q1 = Ok q2 →
        trace run = calls_made table data E config
        ∧ List.filter is_execute_call (trace run) = [call_execute]
        ∧ outcome run = execute q2.
Proof.
  intros Hb Hq.
  destruct (upsertRecord_run db table data conflictColumns excludeColumns)
    as (m & Hm & Hrun).
  exists m. simpl in *. rewrite Hrun, Hb, Hq. split; [exact Hm|].
  split; [|split].
  - destruct (onConflictDoUpdate q _) as [q1|e]; [|done].
    by destruct (returning q1).
  - destruct (onConflictDoUpdate q _) as [q1|e];
      [destruct (returning q1) as [q2|e]|]; simpl.
    + done.
    + by eexists [_].
    + by eexists [_; _].
  - intros q1 q2 Hq1 Hq2. by rewrite Hq1, Hq2.
Qed.

Local Ltac settle_outcome :=
  split;
  [ intros [= <-]; eauto 15
  | intros Hcases; decompose [or ex and] Hcases; simplify_eq; congruence ].

(** C7. [upsertRecord] adds no failure of its own and catches none: its
    outcome is that of the chain of builder calls.  It is rejected with
    [e] exactly when one of those calls throws [e], the calls before it
    having returned, and it yields rows exactly when every call returned
    and the statement gave those rows: no rows come with a failure. *)
Theorem upsertRecord_propagates (db : Db) (table : Table)
    (data : InsertValue) (conflictColumns : ConflictTarget)
    (excludeColumns : option (list string)) :
  ∃ m,
    let config := {| target := conflictColumns; set := m |} in
    let run := upsertRecord db table data conflictColumns excludeColumns in
    buildConflictUpdateColumns table (default [] excludeColumns) = Ok m
    ∧ outcome run
      = (b ← insert db table;
         q ← values b data;
         q1 ← onConflictDoUpdate q config;
         q2 ← returning q1;
         execute q2)
    ∧ (∀ e,
         outcome run = Throw e
         ↔ insert db table = Throw e
           ∨ (∃ b, insert db table = Ok b ∧ values b data = Throw e)
           ∨ (∃ b q, insert db table = Ok b ∧ values b data = Ok q
                     ∧ onConflictDoUpdate q config = Throw e)
           ∨ (∃ b q q1, insert db table = Ok b ∧ values b data = Ok q
                        ∧ onConflictDoUpdate q config = Ok q1
                        ∧ returning q1 = Throw e)
           ∨ (∃ b q q1 q2, insert db table = Ok b ∧ values b data = Ok q
                           ∧ onConflictDoUpdate q config = Ok q1
                           ∧ returning q1 = Ok q2
                           ∧ execute q2 = Throw e))
    ∧ (∀ rows,
         outcome run = Ok rows
         ↔ ∃ b q q1 q2, insert db table = Ok b ∧ values b data = Ok q
                        ∧ onConflictDoUpdate q config = Ok q1
                        ∧ returning q1 = Ok q2
                        ∧ execute q2 = Ok rows).
Proof.
  destruct (upsertRecord_run db table data conflictColumns excludeColumns)
    as (m & Hm & Hrun).
  exists m. simpl in *. rewrite Hrun. clear Hrun. split; [exact Hm|].
  unfold outcome, mbind, result_bind.
  set (config := {| target := conflictColumns; set := m |}).
  destruct (insert db table) as [b|e0] eqn:Hb; simpl.
  2: { split; [done|]. split; [intros e|intros rows]; settle_outcome. }
  destruct (values b data) as [q|e0] eqn:Hq; simpl.
  2: { split; [done|]. split; [intros e|intros rows]; settle_outcome. }
  destruct (onConflictDoUpdate q config) as [q1|e0] eqn:Hq1; simpl.
  2: { split; [done|]. split; [intros e|intros rows]; settle_outcome. }
  destruct (returning q1) as [q2|e0] eqn:Hq2; simpl.
  2: { split; [done|]. split; [intros e|intros rows]; settle_outcome. }
  split; [done|]. split; [intros e|intros rows]; settle_outcome.
Qed.

End UpsertRecordFacts.

Lemma upsertRecord_calls_witness :
  let id := {| name := "id"; columnType := "integer"; notNull := true |} in
  let b := (Mock.accepting, users) in
  let q := (Mock.accepting,
            {| Mock.into := users; Mock.record := Mock.alice;
               Mock.onConflict := None; Mock.withReturning := false |}) in
  insert Mock.accepting users = Ok b
  ∧ values b Mock.alice = Ok q
  ∧ ∃ m,
      let config := {| target := OneColumn id; set := m |} in
      let run := upsertRecord Mock.accepting users Mock.alice (OneColumn id)
                   None in
      buildConflictUpdateColumns users [] = Ok m
      ∧ List.filter is_build_call (trace run)
        = [call_buildConflictUpdateColumns users []]
      ∧ trace run
        `prefix_of` [call_insert users; call_values Mock.alice;
                     call_buildConflictUpdateColumns users [];
                     call_onConflictDoUpdate config; call_returning;
                     call_execute]
      ∧ ∀ q1 q2,
          onConflictDoUpdate q config = Ok q1 →
          returning q1 = Ok q2 →
          trace run
          = [call_insert users; call_values Mock.alice;
             call_buildConflictUpdateColumns users [];
             call_onConflictDoUpdate config; call_returning; call_execute]
          ∧ List.filter is_execute_call (trace run) = [call_execute]
          ∧ outcome run = execute q2.
Proof.
  intros id b q. split; [reflexivity|]. split; [reflexivity|].
  exact (upsertRecord_calls Mock.accepting users Mock.alice (OneColumn id)
           None b q eq_refl eq_refl).
Defined.

(** C3 fails as stated for every call: with every column excluded and a
    builder that refuses an empty update clause, [insert] and [values]
    return, the column-set builder is invoked once, and
    [onConflictDoUpdate] throws, so that no statement is sent at all. *)
Lemma upsertRecord_calls_counterexample :
  let id := {| name := "id"; columnType := "integer"; notNull := true |} in
  let run :=
    upsertRecord (qb := Mock.strict_builder) Mock.accepting users Mock.alice
      (OneColumn id) (Some ["id"; "email"; "updatedAt"]) in
  trace run
  = [call_insert users; call_values Mock.alice;
     call_buildConflictUpdateColumns users ["id"; "email"; "updatedAt"];
     call_onConflictDoUpdate {| target := OneColumn id; set := [] |}]
  ∧ List.filter is_execute_call (trace run) = []
  ∧ List.filter is_execute_call (trace run) ≠ [call_execute]
  ∧ outcome run = Throw (Error "No values to set").
Proof.
  intros id run. split_and!; try reflexivity. discriminate.
Qed.

(** The scenario of an insert without conflict, on the database that
    stores what it is given: the update clause names every column. *)
Example upsertRecord_accepting :
  upsertRecord Mock.accepting users Mock.alice
    (OneColumn {| name := "id"; columnType := "integer"; notNull := true |})
    None
  = ([call_insert users; call_values Mock.alice;
      call_buildConflictUpdateColumns users [];
      call_onConflictDoUpdate
        {| target := OneColumn {| name := "id"; columnType := "integer";
                                  notNull := true |};
           set := [("id", sql_raw "excluded.id");
                   ("email", sql_raw "excluded.email");
                   ("updatedAt", sql_raw "excluded.updated_at")] |};
      call_returning; call_execute],
     Ok [Mock.alice]).
Proof. reflexivity. Qed.

(** A failure of the connection comes out as it is. *)
Example upsertRecord_unreachable :
  outcome (upsertRecord Mock.unreachable users Mock.alice
             (ManyColumns []) (Some ["id"]))
  = Throw (DriverError "ECONNREFUSED" "connection refused").
Proof. reflexivity. Qed.

(** When [insert] throws, nothing else is called. *)
Example upsertRecord_closed_client :
  upsertRecord (qb := Mock.closed_client) () users Mock.alice
    (ManyColumns []) None
  = ([call_insert users], Throw (DriverError "ECLOSED" "client is closed")).
Proof. reflexivity. Qed.

(** ** The builder on the store *)

Lemma store_filter (excludeColumns : positive) (E : list string)
    (h : gmap positive Store.cell) (ks : list string) :
  h !! excludeColumns = Some (Store.StringArray E) →
  Store.filter
    (λ column, b ← Store.includes excludeColumns column; mret (negb b)) ks h
  = (Ok (List.filter (λ column, negb (includes E column)) ks), h).
Proof.
  intros HE. induction ks as [|k ks IH]; [done|].
  simpl. unfold mbind, Store.M_bind in *. unfold Store.includes at 1.
  rewrite HE. simpl. rewrite IH. simpl.
  by destruct (includes E k).
Qed.

(** The reduction writes to the accumulator only, and leaves in it what
    the reduction on values computes. *)
Lemma store_reduce (cols : JsObject Column) (allColumns acc : positive)
    (ks : list string) :
  acc ≠ allColumns →
  ∀ (o o' : JsObject SQL) (h : gmap positive Store.cell),
  h !! allColumns = Some (Store.ColumnsObject cols) →
  h !! acc = Some (Store.SqlObject o) →
  reduce (set_excluded cols) ks o = Ok o' →
  Store.reduce
    (λ acc column,
       colName ← Store.column_name allColumns column;
       Store.set_property acc column (sql_raw ("excluded." +:+ colName));;
       mret acc)
    ks acc h
  = (Ok acc, <[acc := Store.SqlObject o']> h).
Proof.
  intros Hne. induction ks as [|k ks IH]; intros o o' h Hcols Hacc Hred.
  - simpl in *. simplify_eq. unfold mret, Store.M_ret.
    by rewrite insert_id.
  - simpl in Hred. unfold column_name in Hred.
    destruct (obj_get cols k) as [c|] eqn:Hc; [|done]. simpl in Hred.
    simpl. unfold mbind, Store.M_bind.
    unfold Store.column_name at 1. rewrite Hcols, Hc.
    unfold Store.set_property at 1. rewrite Hacc.
    unfold mret at 1, Store.M_ret at 1.
    set (o1 := obj_set o k (sql_raw ("excluded." +:+ name c))).
    specialize (IH o1 o' (<[acc := Store.SqlObject o1]> h)).
    unfold mbind, Store.M_bind in IH. rewrite IH.
    + by rewrite insert_insert_eq.
    + by rewrite lookup_insert_ne.
    + by rewrite lookup_insert_eq.
    + exact Hred.
Qed.

(** A run of the builder on the store allocates one object, at a reference
    that was free, holding the mapping computed on values, and changes
    nothing else. *)
Lemma store_buildConflictUpdateColumns (table : Store.Table)
    (excludeColumns : positive) (h : gmap positive Store.cell)
    (cols : JsObject Column) (E : list string) :
  h !! Store.columns table = Some (Store.ColumnsObject cols) →
  h !! excludeColumns = Some (Store.StringArray E) →
  ∃ m,
    buildConflictUpdateColumns
      {| tableName := Store.tableName table; columns := cols |} E = Ok m
    ∧ Store.buildConflictUpdateColumns table excludeColumns h
      = (Ok (fresh (dom h)), <[fresh (dom h) := Store.SqlObject m]> h).
Proof.
  intros Hcols HE.
  destruct (buildConflictUpdateColumns_spec
              {| tableName := Store.tableName table; columns := cols |} E)
    as (m & Hm & _).
  exists m. split; [exact Hm|].
  pose proof (is_fresh (dom h)) as Hfresh.
  set (l := fresh (dom h)) in *.
  assert (h !! l = None) as Hl by by apply not_elem_of_dom.
  assert (l ≠ Store.columns table) as Hne by congruence.
  unfold Store.buildConflictUpdateColumns, Store.getTableColumns.
  unfold mbind at 1, Store.M_bind at 1, mret at 1, Store.M_ret at 1.
  unfold mbind at 1, Store.M_bind at 1, Store.Object_keys at 1.
  rewrite Hcols.
  unfold mbind at 1, Store.M_bind at 1.
  rewrite (store_filter excludeColumns E h _ HE).
  unfold mbind at 1, Store.M_bind at 1, Store.new_object at 1. fold l.
  rewrite (store_reduce cols (Store.columns table) l _ Hne [] m).
  - by rewrite insert_insert_eq.
  - by rewrite lookup_insert_ne.
  - by rewrite lookup_insert_eq.
  - exact Hm.
Qed.

(** C8. On a store that holds the table's columns object and the
    exclusion array, two calls in a row with the same arguments both
    return; each returns a reference that the store did not hold, so the
    two mappings are distinct objects, and the two objects have the same
    content, the one computed on values.  Every object that was in the
    store before a call, the arguments among them, is the same after it. *)
Theorem buildConflictUpdateColumns_pure (table : Store.Table)
    (excludeColumns : positive) (h : gmap positive Store.cell)
    (cols : JsObject Column) (E : list string) :
  h !! Store.columns table = Some (Store.ColumnsObject cols) →
  h !! excludeColumns = Some (Store.StringArray E) →
  ∃ (l1 l2 : positive) (h1 h2 : gmap positive Store.cell) (m : JsObject SQL),
    Store.buildConflictUpdateColumns table excludeColumns h = (Ok l1, h1)
    ∧ Store.buildConflictUpdateColumns table excludeColumns h1 = (Ok l2, h2)
    ∧ buildConflictUpdateColumns
        {| tableName := Store.tableName table; columns := cols |} E = Ok m
    ∧ h1 !! l1 = Some (Store.SqlObject m)
    ∧ h2 !! l2 = Some (Store.SqlObject m)
    ∧ h2 !! l1 = Some (Store.SqlObject m)
    ∧ (l1 ∉ dom h) ∧ (l2 ∉ dom h1) ∧ l1 ≠ l2
    ∧ (∀ l, l ∈ dom h → h1 !! l = h !! l ∧ h2 !! l = h !! l)
    ∧ dom h1 = dom h ∪ {[l1]}
    ∧ dom h2 = dom h ∪ {[l1; l2]}.
Proof.
  intros Hcols HE.
  destruct (store_buildConflictUpdateColumns table excludeColumns h cols E
              Hcols HE) as (m & Hm & Hrun1).
  pose proof (is_fresh (dom h)) as Hl1.
  set (l1 := fresh (dom h)) in *.
  set (h1 := <[l1 := Store.SqlObject m]> h) in *.
  assert (∀ l, l ∈ dom h → l ≠ l1) as Hold by (intros l Hl ->; done).
  assert (h1 !! Store.columns table = Some (Store.ColumnsObject cols))
    as Hcols1.
  { unfold h1. rewrite lookup_insert_ne; [done|].
    intros Heq. apply Hl1. rewrite Heq. apply elem_of_dom. by rewrite Hcols. }
  assert (h1 !! excludeColumns = Some (Store.StringArray E)) as HE1.
  { unfold h1. rewrite lookup_insert_ne; [done|].
    intros Heq. apply Hl1. rewrite Heq. apply elem_of_dom. by rewrite HE. }
  destruct (store_buildConflictUpdateColumns table excludeColumns h1 cols E
              Hcols1 HE1) as (m' & Hm' & Hrun2).
  assert (m' = m) as -> by congruence.
  pose proof (is_fresh (dom h1)) as Hl2.
  set (l2 := fresh (dom h1)) in *.
  assert (l1 ∈ dom h1) as Hl1in.
  { unfold h1. rewrite dom_insert_L. set_solver. }
  assert (l1 ≠ l2) as Hne by (intros Heq; apply Hl2; by rewrite <- Heq).
  exists l1, l2, h1, (<[l2 := Store.SqlObject m]> h1), m.
  split_and!; try done.
  - unfold h1. by rewrite lookup_insert_eq.
  - by rewrite lookup_insert_eq.
  - rewrite lookup_insert_ne by done. unfold h1. by rewrite lookup_insert_eq.
  - intros l Hl. pose proof (Hold l Hl) as Hne1.
    assert (l ≠ l2) as Hne2.
    { intros ->. apply Hl2. unfold h1. rewrite dom_insert_L. set_solver. }
    split.
    + unfold h1. by rewrite lookup_insert_ne.
    + rewrite lookup_insert_ne by done. unfold h1. by rewrite lookup_insert_ne.
  - unfold h1. rewrite dom_insert_L. set_solver.
  - rewrite dom_insert_L. unfold h1. rewrite dom_insert_L. set_solver.
Qed.

Lemma buildConflictUpdateColumns_pure_witness :
  Store.users_heap !! Store.columns Store.users_table
  = Some (Store.ColumnsObject users_columns)
  ∧ Store.users_heap !! 2%positive = Some (Store.StringArray ["id"])
  ∧ ∃ (l1 l2 : positive) (h1 h2 : gmap positive Store.cell)
      (m : JsObject SQL),
      Store.buildConflictUpdateColumns Store.users_table 2%positive
        Store.users_heap = (Ok l1, h1)
      ∧ Store.buildConflictUpdateColumns Store.users_table 2%positive h1
        = (Ok l2, h2)
      ∧ buildConflictUpdateColumns users ["id"] = Ok m
      ∧ h1 !! l1 = Some (Store.SqlObject m)
      ∧ h2 !! l2 = Some (Store.SqlObject m)
      ∧ h2 !! l1 = Some (Store.SqlObject m)
      ∧ (l1 ∉ dom Store.users_heap) ∧ (l2 ∉ dom h1) ∧ l1 ≠ l2
      ∧ (∀ l, l ∈ dom Store.users_heap →
              h1 !! l = Store.users_heap !! l
              ∧ h2 !! l = Store.users_heap !! l)
      ∧ dom h1 = dom Store.users_heap ∪ {[l1]}
      ∧ dom h2 = dom Store.users_heap ∪ {[l1; l2]}.
Proof.
  split; [reflexivity|]. split; [reflexivity|].
  exact (buildConflictUpdateColumns_pure Store.users_table 2%positive
           Store.users_heap users_columns ["id"] eq_refl eq_refl).
Defined.

(** The first call on the scenario's store puts the mapping at a new
    reference and leaves the two arguments as they were. *)
Example store_build_users :
  let '(r, h1) :=
    Store.buildConflictUpdateColumns Store.users_table 2%positive
      Store.users_heap in
  ∃ l, r = Ok l
       ∧ h1 !! l = Some (Store.SqlObject
                           [("email", sql_raw "excluded.email");
                            ("updatedAt", sql_raw "excluded.updated_at")])
       ∧ h1 !! 1%positive = Some (Store.ColumnsObject users_columns)
       ∧ h1 !! 2%positive = Some (Store.StringArray ["id"]).
Proof. vm_compute. eexists. repeat split. Qed.

(** ** Worked examples *)

Example array_index_examples :
  array_index "0" = Some 0%N
  ∧ array_index "10" = Some 10%N
  ∧ array_index "4294967294" = Some 4294967294%N
  ∧ array_index "4294967295" = None
  ∧ array_index "01" = None
  ∧ array_index "" = None
  ∧ array_index "id" = None.
Proof. repeat split. Qed.

(** Array-index keys are enumerated first and in numeric order, the other
    keys in the order of their creation; an assignment to a key that exists
    keeps its place. *)
Example obj_set_order :
  obj_set (obj_set (obj_set (obj_set [] "b" 1) "10" 2) "9" 3) "b" 4
  = [("9", 3); ("10", 2); ("b", 4)].
Proof. reflexivity. Qed.

(** The scenario with [id] excluded. *)
Example build_users_without_id :
  buildConflictUpdateColumns users ["id"]
  = Ok [("email", sql_raw "excluded.email");
        ("updatedAt", sql_raw "excluded.updated_at")].
Proof. reflexivity. Qed.

Example build_users_nothing_excluded :
  buildConflictUpdateColumns users []
  = Ok [("id", sql_raw "excluded.id");
        ("email", sql_raw "excluded.email");
        ("updatedAt", sql_raw "excluded.updated_at")].
Proof. reflexivity. Qed.

Example build_users_all_excluded :
  buildConflictUpdateColumns users ["updatedAt"; "id"; "email"] = Ok [].
Proof. reflexivity. Qed.

Example build_users_unknown_excluded :
  buildConflictUpdateColumns users ["createdAt"; "id"; "updated_at"]
  = buildConflictUpdateColumns users ["id"].
Proof. reflexivity. Qed.

Example takeFirstOrNull_examples :
  takeFirstOrNull [] = JsNull
  ∧ takeFirstOrNull [JsBoolean false; JsString "x"] = JsBoolean false
  ∧ takeFirstOrNull [JsRecord Mock.alice] = JsRecord Mock.alice.
Proof. repeat split. Qed.

Example takeFirstOrThrow_examples :
  takeFirstOrThrow [] = Throw (Error "First item not found")
  ∧ takeFirstOrThrow [JsRecord Mock.alice; JsNull] = Ok (JsRecord Mock.alice)
  ∧ takeFirstOrThrow [JsUndefined; JsRecord Mock.alice]
    = Throw (Error "First item not found")
  ∧ takeFirstOrThrow [JsNumber S754_nan]
    = Throw (Error "First item not found")
  ∧ takeFirstOrThrow [JsBigInt 0] = Throw (Error "First item not found")
  ∧ takeFirstOrThrow [JsString "0"] = Ok (JsString "0").
Proof. repeat split. Qed.

(** * Further properties *)

(** ** The column-set builder on values *)

Lemma filter_keys {V} (p : string → bool) (o : JsObject V) :
  List.filter p (Object_keys o) = Object_keys (List.filter (λ e, p e.1) o).
Proof.
  unfold Object_keys. induction o as [|[k v] o IH]; [done|].
  csimpl. destruct (p k); csimpl; by rewrite IH.
Qed.

Lemma key_order_app_l a b : key_order (a ++ b) = true → key_order a = true.
Proof.
  induction a as [|x a IH]; [done|]. simpl app.
  intros (Hall & Hnin & Hord)%key_order_cons. apply key_order_cons.
  apply Forall_app in Hall as [Hall _].
  apply not_elem_of_app in Hnin as [Hnin _]. auto.
Qed.

Lemma key_order_delete_middle a k b :
  key_order (a ++ k :: b) = true → key_order (a ++ b) = true.
Proof.
  induction a as [|x a IH]; simpl app.
  - by intros (_ & _ & Hord)%key_order_cons.
  - intros (Hall & Hnin & Hord)%key_order_cons. apply key_order_cons.
    apply Forall_app in Hall as [Ha [_ Hb]%Forall_cons_1].
    apply not_elem_of_app in Hnin as [Hna [_ Hnb]%not_elem_of_cons].
    split_and!.
    + by apply Forall_app.
    + by apply not_elem_of_app.
    + by apply IH.
Qed.

Lemma filter_and {A} (p q : A → bool) (l : list A) :
  List.filter q (List.filter p l) = List.filter (λ x, p x && q x) l.
Proof.
  induction l as [|x l IH]; [done|]. simpl.
  destruct (p x); simpl; [destruct (q x)|]; by rewrite IH.
Qed.

(** Visiting the keys of entries of the columns object in enumeration
    order appends, entry by entry, the reference built from the entry,
    and passes over an entry whose key is [__proto__]. *)
Lemma reduce_set_excluded_entries (allColumns : JsObject Column) :
  NoDup (Object_keys allColumns) →
  ∀ (suf : JsObject Column) (acc : JsObject SQL),
  (∀ e, e ∈ suf → e ∈ allColumns) →
  "__proto__" ∉ Object_keys acc →
  key_order (Object_keys acc ++ Object_keys suf) = true →
  reduce (set_excluded allColumns) (Object_keys suf) acc
  = Ok (acc ++ List.map (λ e, (e.1, excluded_ref e.2))
                 (List.filter (λ e, negb (String.eqb e.1 "__proto__")) suf)).
Proof.
  intros Hnd. induction suf as [|[k c] suf IH]; intros acc Hsub Hacc Hord.
  - simpl. by rewrite app_nil_r.
  - change (Object_keys ((k, c) :: suf)) with (k :: Object_keys suf) in *.
    assert (obj_get allColumns k = Some c) as Hc.
    { apply obj_get_NoDup; [done|]. apply Hsub. left. }
    assert (∀ e, e ∈ suf → e ∈ allColumns) as Hsub'.
    { intros e He. apply Hsub. by right. }
    simpl. unfold column_name. rewrite Hc. simpl.
    destruct (String.eqb k "__proto__") eqn:Hk; simpl.
    + apply String.eqb_eq in Hk as ->.
      rewrite (obj_set_proto acc _ Hacc). apply IH; [done..|].
      by apply key_order_delete_middle in Hord.
    + apply String.eqb_neq in Hk.
      destruct (key_order_middle _ _ _ Hord) as [Hnin Hall].
      rewrite (obj_set_last acc k (excluded_ref c) Hk Hnin Hall).
      rewrite IH; [by rewrite <- app_assoc | done | |].
      * unfold Object_keys. rewrite fmap_app, not_elem_of_app.
        split; [done|]. csimpl. rewrite list_elem_of_singleton. congruence.
      * unfold Object_keys in *. rewrite fmap_app, <- app_assoc. exact Hord.
Qed.

Lemma build_well_formed (T : Table) (E : list string) :
  wf_object (columns T) →
  buildConflictUpdateColumns T E
  = Ok (List.map (λ e, (e.1, excluded_ref e.2))
          (List.filter
             (λ e, negb (includes E e.1)
                   && negb (String.eqb e.1 "__proto__"))
             (columns T))).
Proof.
  intros Hwf. unfold buildConflictUpdateColumns, getTableColumns.
  rewrite filter_keys.
  rewrite (reduce_set_excluded_entries (columns T)).
  - simpl. by rewrite filter_and.
  - by apply key_order_NoDup.
  - intros e He%list_elem_of_In%filter_In. apply list_elem_of_In. tauto.
  - apply not_elem_of_nil.
  - rewrite <- (filter_keys (λ k, negb (includes E k))).
    by apply key_order_filter.
Qed.

(** On a table with a well-formed columns object the builder returns the
    entries of that object, in their order, without those whose identifier
    is excluded or is [__proto__], each descriptor replaced by the
    reference to its storage name. *)
Theorem buildConflictUpdateColumns_entries (T : Table) (E : list string) :
  wf_object (columns T) →
  buildConflictUpdateColumns T E
  = Ok (List.map (λ e, (e.1, sql_raw ("excluded." +:+ name e.2)))
          (List.filter
             (λ e, negb (includes E e.1)
                   && negb (String.eqb e.1 "__proto__"))
             (columns T))).
Proof. apply build_well_formed. Qed.

Lemma buildConflictUpdateColumns_entries_witness :
  wf_object (columns proto_table)
  ∧ buildConflictUpdateColumns proto_table ["z"]
    = Ok (List.map (λ e, (e.1, sql_raw ("excluded." +:+ name e.2)))
            (List.filter
               (λ e, negb (includes ["z"] e.1)
                     && negb (String.eqb e.1 "__proto__"))
               (columns proto_table))).
Proof.
  split; [reflexivity|].
  apply (buildConflictUpdateColumns_entries proto_table ["z"]). reflexivity.
Defined.

(** The exclusion list counts as a set: two lists with the same elements,
    in whatever order and with whatever repetitions, give the same result. *)
Theorem buildConflictUpdateColumns_exclusion_set (T : Table)
    (E E' : list string) :
  (∀ x, x ∈ E ↔ x ∈ E') →
  buildConflictUpdateColumns T E = buildConflictUpdateColumns T E'.
Proof.
  intros Hsame. unfold buildConflictUpdateColumns. f_equal.
  apply filter_ext. intros k. f_equal.
  destruct (includes E' k) eqn:HE'.
  - apply includes_true. apply Hsame. by apply includes_true.
  - apply includes_false. rewrite Hsame. by apply includes_false.
Qed.

Lemma buildConflictUpdateColumns_exclusion_set_witness :
  (∀ x, x ∈ ["id"; "email"] ↔ x ∈ ["email"; "id"; "email"])
  ∧ buildConflictUpdateColumns users ["id"; "email"]
    = buildConflictUpdateColumns users ["email"; "id"; "email"].
Proof.
  assert (∀ x, x ∈ ["id"; "email"] ↔ x ∈ ["email"; "id"; "email"]) as H.
  { intros x. rewrite !elem_of_cons, !elem_of_nil. tauto. }
  split; [exact H|].
  exact (buildConflictUpdateColumns_exclusion_set users _ _ H).
Defined.

(** Excluding more only removes entries: with [E] contained in [E'], every
    key of the result for [E'] is a key of the result for [E], bound to the
    same value. *)
Theorem buildConflictUpdateColumns_exclude_more (T : Table)
    (E E' : list string) :
  E ⊆ E' →
  ∃ m m',
    buildConflictUpdateColumns T E = Ok m
    ∧ buildConflictUpdateColumns T E' = Ok m'
    ∧ (∀ k, k ∈ Object_keys m' → k ∈ Object_keys m)
    ∧ (∀ k v, obj_get m' k = Some v → obj_get m k = Some v).
Proof.
  intros Hsub.
  destruct (buildConflictUpdateColumns_spec T E) as (m & Hm & Hk & Hg).
  destruct (buildConflictUpdateColumns_spec T E') as (m' & Hm' & Hk' & Hg').
  assert (∀ k, k ∈ Object_keys m' →
               k ∈ Object_keys (columns T) ∧ (k ∉ E) ∧ k ≠ "__proto__")
    as Hin.
  { intros k (HT & HE' & Hp)%Hk'. split_and!; [done| |done].
    intros HE. by apply HE', Hsub. }
  exists m, m'. split_and!; try done.
  - intros k Hkm'. apply Hk. by apply Hin.
  - intros k v Hv.
    assert (k ∈ Object_keys m') as Hkm' by (apply obj_get_is_Some; eauto).
    destruct (Hin k Hkm') as (HT & HE & Hp).
    apply Hk' in Hkm' as (_ & HE' & _).
    rewrite (Hg k HT HE Hp). by rewrite <- (Hg' k HT HE' Hp).
Qed.

Lemma buildConflictUpdateColumns_exclude_more_witness :
  ["id"] ⊆ ["id"; "email"]
  ∧ ∃ m m',
      buildConflictUpdateColumns users ["id"] = Ok m
      ∧ buildConflictUpdateColumns users ["id"; "email"] = Ok m'
      ∧ (∀ k, k ∈ Object_keys m' → k ∈ Object_keys m)
      ∧ (∀ k v, obj_get m' k = Some v → obj_get m k = Some v).
Proof.
  assert (["id"] ⊆ ["id"; "email"]) as H.
  { intros x Hx. by apply elem_of_cons; left; apply list_elem_of_singleton. }
  split; [exact H|].
  exact (buildConflictUpdateColumns_exclude_more users _ _ H).
Defined.

(** The update clause is empty exactly when every column identifier of the
    table is in the exclusion list or is [__proto__] (a table without
    columns included). *)
Theorem buildConflictUpdateColumns_empty_iff (T : Table) (E : list string) :
  buildConflictUpdateColumns T E = Ok []
  ↔ ∀ k, k ∈ Object_keys (columns T) → k ∈ E ∨ k = "__proto__".
Proof.
  destruct (buildConflictUpdateColumns_spec T E) as (m & Hm & Hk & _).
  rewrite Hm. split.
  - intros [= ->] k HT.
    destruct (decide (k ∈ E)) as [|HE]; [by left|].
    destruct (decide (k = "__proto__")) as [|Hp]; [by right|].
    assert (k ∈ Object_keys (@nil (string * SQL))) as Hin by by apply Hk.
    by apply elem_of_nil in Hin.
  - intros Hall. f_equal.
    assert (Object_keys m = []) as Hnil.
    { apply elem_of_nil_inv. intros k (HT & HE & Hp)%Hk.
      by destruct (Hall k HT). }
    by apply fmap_nil_inv in Hnil.
Qed.

(** A table that gains a column, enumerated after the others, keeps the
    entries it had: the result is the former one, followed by the
    reference to the new column unless that column is excluded or its
    identifier is [__proto__]. *)
Theorem buildConflictUpdateColumns_new_column (T : Table) (E : list string)
    (k : string) (c : Column) :
  wf_object (columns T ++ [(k, c)]) →
  ∃ m,
    buildConflictUpdateColumns T E = Ok m
    ∧ buildConflictUpdateColumns
        {| tableName := tableName T; columns := columns T ++ [(k, c)] |} E
      = Ok (if includes E k || String.eqb k "__proto__" then m
            else m ++ [(k, sql_raw ("excluded." +:+ name c))]).
Proof.
  intros Hwf.
  assert (wf_object (columns T)) as HwfT.
  { unfold wf_object, Object_keys in *. rewrite fmap_app in Hwf.
    by apply key_order_app_l in Hwf. }
  eexists. split; [by apply build_well_formed|].
  rewrite build_well_formed by done. simpl columns.
  rewrite List.filter_app, List.map_app. simpl.
  destruct (includes E k); simpl; [by rewrite app_nil_r|].
  destruct (String.eqb k "__proto__"); simpl; by rewrite ?app_nil_r.
Qed.

Lemma buildConflictUpdateColumns_new_column_witness :
  let createdAt :=
    {| name := "created_at"; columnType := "timestamp"; notNull := true |} in
  wf_object (columns users ++ [("createdAt", createdAt)])
  ∧ ∃ m,
      buildConflictUpdateColumns users ["id"] = Ok m
      ∧ buildConflictUpdateColumns
          {| tableName := tableName users;
             columns := columns users ++ [("createdAt", createdAt)] |} ["id"]
        = Ok (if includes ["id"] "createdAt"
                 || String.eqb "createdAt" "__proto__" then m
              else m ++ [("createdAt",
                          sql_raw ("excluded." +:+ name createdAt))]).
Proof.
  intros createdAt. split; [reflexivity|].
  apply (buildConflictUpdateColumns_new_column users ["id"] "createdAt"
           createdAt).
  reflexivity.
Defined.

(** ** The column-set builder on the store *)

Lemma store_filter_not_array (excludeColumns : positive)
    (h : gmap positive Store.cell) (k : string) (ks : list string) :
  (∀ a, h !! excludeColumns ≠ Some (Store.StringArray a)) →
  ∃ message,
    Store.filter
      (λ column, b ← Store.includes excludeColumns column; mret (negb b))
      (k :: ks) h
    = (Throw (TypeError message), h).
Proof.
  intros Hnot. simpl. unfold mbind, Store.M_bind, Store.includes.
  destruct (h !! excludeColumns) as [[o|a|o]|] eqn:Hx; eauto.
  by destruct (Hnot a).
Qed.

(** An exclusion argument that is an object without [includes], not an
    array: on a table that has a column the call throws a [TypeError] at
    the first key, before anything is created, and the store is as it was;
    on a table without columns [includes] is never called and the call
    returns a new empty mapping. *)
Theorem store_buildConflictUpdateColumns_not_array (table : Store.Table)
    (excludeColumns : positive) (h : gmap positive Store.cell)
    (cols : JsObject Column) :
  h !! Store.columns table = Some (Store.ColumnsObject cols) →
  (∀ a, h !! excludeColumns ≠ Some (Store.StringArray a)) →
  match cols with
  | [] =>
      Store.buildConflictUpdateColumns table excludeColumns h
      = (Ok (fresh (dom h)), <[fresh (dom h) := Store.SqlObject []]> h)
  | _ :: _ =>
      ∃ message,
        Store.buildConflictUpdateColumns table excludeColumns h
        = (Throw (TypeError message), h)
  end.
Proof.
  intros Hcols Hnot.
  destruct cols as [|[k c] cols];
    [|destruct (store_filter_not_array excludeColumns h k (cols.*1) Hnot)
        as [message Hthrow]; exists message];
    unfold Store.buildConflictUpdateColumns, Store.getTableColumns;
    unfold mbind at 1, Store.M_bind at 1, mret at 1, Store.M_ret at 1;
    unfold mbind at 1, Store.M_bind at 1, Store.Object_keys at 1;
    rewrite Hcols; unfold mbind at 1, Store.M_bind at 1.
  - reflexivity.
  - change (((k, c) :: cols).*1) with (k :: cols.*1). by rewrite Hthrow.
Qed.

Lemma store_buildConflictUpdateColumns_not_array_witness :
  Store.users_heap !! Store.columns Store.users_table
  = Some (Store.ColumnsObject users_columns)
  ∧ (∀ a, Store.users_heap !! 1%positive ≠ Some (Store.StringArray a))
  ∧ ∃ message,
      Store.buildConflictUpdateColumns Store.users_table 1%positive
        Store.users_heap
      = (Throw (TypeError message), Store.users_heap).
Proof.
  assert (∀ a, Store.users_heap !! 1%positive ≠ Some (Store.StringArray a))
    as Hnot.
  { intros a.
    change (Store.users_heap !! 1%positive)
      with (Some (Store.ColumnsObject users_columns)).
    discriminate. }
  split; [reflexivity|]. split; [exact Hnot|].
  exact (store_buildConflictUpdateColumns_not_array Store.users_table
           1%positive Store.users_heap users_columns eq_refl Hnot).
Defined.

(** ** upsertRecord, whatever the builder does *)

Section UpsertRecordTrace.
Context {Db InsertBuilder InsertQuery : Type}.
Context `{qb : !QueryBuilder Db InsertBuilder InsertQuery}.

Local Ltac not_in_trace :=
  let Hin := fresh "Hin" in
  intros Hin;
  repeat (apply elem_of_cons in Hin as [Hin|Hin]; [discriminate Hin|]);
  by apply elem_of_nil in Hin.

Local Ltac in_trace := rewrite !elem_of_cons; eauto 10.

(** In every call the calls made are an initial part of: [insert],
    [values], the column-set builder, [onConflictDoUpdate], [returning],
    and the sending of the statement.  The column-set builder is reached
    exactly when [insert] and [values] returned, and a statement is sent
    exactly when the four builder methods returned; when one of them
    throws, no statement is sent.  A call that yields rows has made all
    six calls, each once. *)
Theorem upsertRecord_trace (db : Db) (table : Table) (data : InsertValue)
    (conflictColumns : ConflictTarget)
    (excludeColumns : option (list string)) :
  ∃ m,
    let E := default [] excludeColumns in
    let config := {| target := conflictColumns; set := m |} in
    let run := upsertRecord db table data conflictColumns excludeColumns in
    let all_calls :=
      [call_insert table; call_values data;
       call_buildConflictUpdateColumns table E;
       call_onConflictDoUpdate config; call_returning; call_execute] in
    buildConflictUpdateColumns table E = Ok m
    ∧ trace run `prefix_of` all_calls
    ∧ (call_buildConflictUpdateColumns table E ∈ trace run
       ↔ ∃ b q, insert db table = Ok b ∧ values b data = Ok q)
    ∧ (call_execute ∈ trace run
       ↔ ∃ b q q1 q2, insert db table = Ok b ∧ values b data = Ok q
                      ∧ onConflictDoUpdate q config = Ok q1
                      ∧ returning q1 = Ok q2)
    ∧ (∀ rows, outcome run = Ok rows → trace run = all_calls).
Proof.
  destruct (upsertRecord_run db table data conflictColumns excludeColumns)
    as (m & Hm & Hrun).
  exists m. simpl in *. rewrite Hrun. clear Hrun. split; [exact Hm|].
  set (config := {| target := conflictColumns; set := m |}).
  unfold trace, outcome.
  destruct (insert db table) as [b|e0] eqn:Hb; simpl.
  2: { split_and!.
       - by eexists [_; _; _; _; _].
       - split; [not_in_trace | by intros (? & ? & ? & ?)].
       - split; [not_in_trace | by intros (? & ? & ? & ? & ? & ?)].
       - done. }
  destruct (values b data) as [q|e0] eqn:Hq; simpl.
  2: { split_and!.
       - by eexists [_; _; _; _].
       - split; [not_in_trace|]. intros (? & ? & ? & ?). congruence.
       - split; [not_in_trace|]. intros (? & ? & ? & ? & ? & ? & ?).
         congruence.
       - done. }
  destruct (onConflictDoUpdate q config) as [q1|e0] eqn:Hq1; simpl.
  2: { split_and!.
       - by eexists [_; _].
       - split; [eauto | in_trace].
       - split; [not_in_trace|]. intros (? & ? & ? & ? & ? & ? & ? & ?).
         congruence.
       - done. }
  destruct (returning q1) as [q2|e0] eqn:Hq2; simpl.
  2: { split_and!.
       - by eexists [_].
       - split; [eauto | in_trace].
       - split; [not_in_trace|]. intros (? & ? & ? & ? & ? & ? & ? & ?).
         congruence.
       - done. }
  split_and!.
  - done.
  - split; [eauto | in_trace].
  - split; [eauto 10 | in_trace].
  - done.
Qed.

(** With [excludeColumns] omitted, the update clause handed to
    [onConflictDoUpdate] binds every column of the table whose identifier
    is not [__proto__] to the reference to its storage name: it depends
    neither on the conflict target, whose columns are not left out, nor on
    the columns that [data] holds. *)
Theorem upsertRecord_default_sets_all_columns (db : Db) (table : Table)
    (data : InsertValue) (conflictColumns : ConflictTarget)
    (b : InsertBuilder) (q : InsertQuery) :
  insert db table = Ok b →
  values b data = Ok q →
  ∃ m,
    trace (upsertRecord db table data conflictColumns None) !! 3
    = Some (call_onConflictDoUpdate
              {| target := conflictColumns; set := m |})
    ∧ ∀ k c,
        obj_get (columns table) k = Some c →
        k ≠ "__proto__" →
        obj_get m k = Some (sql_raw ("excluded." +:+ name c)).
Proof.
  intros Hb Hq.
  destruct (upsertRecord_run db table data conflictColumns None)
    as (m & Hm & Hrun).
  exists m. simpl in *. rewrite Hrun, Hb, Hq. split.
  - destruct (onConflictDoUpdate q _) as [q1|e]; [|done].
    by destruct (returning q1).
  - intros k c Hc Hk.
    destruct (buildConflictUpdateColumns_spec table [])
      as (m' & Hm' & _ & Hg).
    assert (m' = m) as -> by congruence.
    rewrite Hg, Hc; [done| |apply not_elem_of_nil|done].
    apply obj_get_is_Some. by exists c.
Qed.

End UpsertRecordTrace.

Lemma upsertRecord_default_sets_all_columns_witness :
  let id := {| name := "id"; columnType := "integer"; notNull := true |} in
  let data := [("email", JsString "a@x.com")] in
  let b := (Mock.accepting, users) in
  let q := (Mock.accepting,
            {| Mock.into := users; Mock.record := data;
               Mock.onConflict := None; Mock.withReturning := false |}) in
  insert Mock.accepting users = Ok b
  ∧ values b data = Ok q
  ∧ ∃ m,
      trace (upsertRecord Mock.accepting users data (OneColumn id) None) !! 3
      = Some (call_onConflictDoUpdate {| target := OneColumn id; set := m |})
      ∧ ∀ k c,
          obj_get (columns users) k = Some c →
          k ≠ "__proto__" →
          obj_get m k = Some (sql_raw ("excluded." +:+ name c)).
Proof.
  intros id data b q. split; [reflexivity|]. split; [reflexivity|].
  exact (upsertRecord_default_sets_all_columns Mock.accepting users data
           (OneColumn id) b q eq_refl eq_refl).
Defined.

(** ** The first-row helpers on arrays of rows *)

(** On an array whose elements are all truthy, as the rows of a query are,
    [takeFirstOrThrow] throws exactly for the empty array and returns the
    first element of any other. *)
Theorem takeFirstOrThrow_truthy (items : list JsValue) :
  Forall (λ v, ToBoolean v = true) items →
  (takeFirstOrThrow items = Throw (Error "First item not found")
   ↔ items = [])
  ∧ (∀ x t, items = x :: t → takeFirstOrThrow items = Ok x).
Proof.
  intros Hall. destruct items as [|x t].
  - split; [done|]. by intros ? ? ?.
  - apply Forall_cons_1 in Hall as [Hx _].
    unfold takeFirstOrThrow. rewrite takeFirstOrNull_cons, Hx. simpl.
    split; [split; discriminate|]. by intros ? ? [= <- <-].
Qed.

Lemma takeFirstOrThrow_truthy_witness :
  Forall (λ v, ToBoolean v = true) [JsRecord Mock.alice; JsRecord []]
  ∧ (takeFirstOrThrow [JsRecord Mock.alice; JsRecord []]
     = Throw (Error "First item not found")
     ↔ [JsRecord Mock.alice; JsRecord []] = [])
  ∧ (∀ x t, [JsRecord Mock.alice; JsRecord []] = x :: t →
            takeFirstOrThrow [JsRecord Mock.alice; JsRecord []] = Ok x).
Proof.
  assert (Forall (λ v, ToBoolean v = true) [JsRecord Mock.alice; JsRecord []])
    as H by (repeat constructor).
  split; [exact H|]. exact (takeFirstOrThrow_truthy _ H).
Defined.

(** [takeFirstOrThrow] returns only what [takeFirstOrNull] returns, and
    never [null], [undefined] or another falsy value; whenever
    [takeFirstOrNull] gives [null], [takeFirstOrThrow] throws. *)
Theorem takeFirstOrThrow_agrees (items : list JsValue) :
  (∀ v, takeFirstOrThrow items = Ok v →
        takeFirstOrNull items = v ∧ ToBoolean v = true
        ∧ v ≠ JsNull ∧ v ≠ JsUndefined)
  ∧ (takeFirstOrNull items = JsNull →
     takeFirstOrThrow items = Throw (Error "First item not found")).
Proof.
  unfold takeFirstOrThrow. split.
  - intros v. destruct (ToBoolean (takeFirstOrNull items)) eqn:Hb; [|done].
    simpl. intros [= <-].
    split_and!; try done; by intros Heq; rewrite Heq in Hb.
  - by intros ->.
Qed.

(** A [null] from [takeFirstOrNull] does not tell the empty array from an
    array that starts with [null]: these are the two cases that give it. *)
Theorem takeFirstOrNull_null_iff (items : list JsValue) :
  takeFirstOrNull items = JsNull
  ↔ items = [] ∨ ∃ t, items = JsNull :: t.
Proof.
  destruct items as [|x t].
  - split; [by left | done].
  - rewrite takeFirstOrNull_cons. split.
    + intros ->. right. by exists t.
    + by intros [?|[? [= -> _]]].
Qed.

(** ** The SQL helpers *)

Lemma scan_app (s1 s2 : string) :
  ∀ d, Utils.scan d (s1 +:+ s2) = Utils.scan d s1 ≫= λ d', Utils.scan d' s2.
Proof.
  induction s1 as [|a r IH]; intros d; [done|].
  simpl. destruct (Ascii.eqb a "("); [apply IH|].
  destruct (Ascii.eqb a ")"); [|apply IH].
  destruct d; [done | apply IH].
Qed.

Lemma scan_shift (s : string) :
  ∀ d d' k, Utils.scan d s = Some d' → Utils.scan (d + k) s = Some (d' + k).
Proof.
  induction s as [|a r IH]; intros d d' k; simpl.
  - by intros [= ->].
  - destruct (Ascii.eqb a "("); [apply (IH (S d))|].
    destruct (Ascii.eqb a ")"); [|apply IH].
    destruct d as [|d]; [done|]. apply (IH d).
Qed.

Lemma balanced_at (s : string) (d : nat) :
  Utils.balanced s → Utils.scan d s = Some d.
Proof. intros Hs. apply (scan_shift s 0 0 d Hs). Qed.

(** Reading a text made of literal segments and of balanced parts. *)
Local Ltac scan_text :=
  repeat first
    [ rewrite scan_app
    | erewrite balanced_at by eassumption
    | progress cbn [Utils.scan Ascii.eqb Bool.eqb mbind option_bind] ];
  reflexivity.

(** The helpers keep parentheses balanced, whatever text stands for the
    other columns: for a column whose text is balanced, the text of
    [distinct], [max], [min] and [count] of it is balanced; [coalesce] of
    two balanced expressions is balanced; and both forms of [now] are. *)
Theorem helpers_balanced (column_text : Column → string) :
  (∀ column,
     Utils.balanced (column_text column) →
     Utils.balanced (Utils.text column_text (Utils.distinct column))
     ∧ Utils.balanced (Utils.text column_text (Utils.max column))
     ∧ Utils.balanced (Utils.text column_text (Utils.min column))
     ∧ Utils.balanced (Utils.text column_text (Utils.count column)))
  ∧ (∀ value defaultValue,
       Utils.balanced (Utils.text column_text value) →
       Utils.balanced (Utils.text column_text defaultValue) →
       Utils.balanced
         (Utils.text column_text (Utils.coalesce value defaultValue)))
  ∧ (∀ localtime,
       Utils.balanced (Utils.text column_text (Utils.now localtime))).
Proof.
  split_and!.
  - intros column Hc.
    split_and!; unfold Utils.balanced;
      cbn [Utils.text Utils.distinct Utils.max Utils.min Utils.count
           Utils.interleave List.map];
      scan_text.
  - intros value defaultValue Hv Hd. unfold Utils.balanced.
    cbn [Utils.text Utils.coalesce Utils.interleave List.map].
    scan_text.
  - intros [[]|]; reflexivity.
Qed.

(** With the storage name standing for a column, a column named [a(] has
    an unbalanced text and the statement still applies to the others. *)
Lemma helpers_balanced_witness :
  let age := {| name := "age"; columnType := "integer"; notNull := false |} in
  let odd := {| name := "a("; columnType := "text"; notNull := false |} in
  ¬ Utils.balanced (name odd)
  ∧ Utils.balanced (name age)
  ∧ Utils.balanced
      (Utils.text name (Utils.coalesce (Utils.max age) (Utils.now None))).
Proof.
  intros age odd. split; [discriminate|]. split; [reflexivity|].
  destruct (helpers_balanced name) as (Hcol & Hco & Hnow).
  apply Hco; [apply (Hcol age); reflexivity | apply Hnow].
Defined.
